(** * RGBLINK section registry and sanity checks (src/link/section.c)

    A shallow embedding of [src/link/section.c]: the static layout tables,
    the registry of sections ([sect_AddSection], [sect_GetSection],
    [sect_CleanupSections]) and the per-section sanity checks
    ([doSanityChecks], [sect_DoSanityChecks]), followed by the properties
    proved about them. *)

From Stdlib Require Import ZArith List Bool Lia.
From stdpp Require Import base option list gmap strings.

Local Open Scope Z_scope.

(** ** Data model *)

(** [enum SectionType].  The enumeration is declared in a header; the file
    only uses its members by name.  Every value that fails the range test
    [type < 0 || type >= SECTTYPE_INVALID] is represented by
    [SECTTYPE_INVALID]. *)
Inductive SectionType : Set :=
  | SECTTYPE_ROM0
  | SECTTYPE_ROMX
  | SECTTYPE_VRAM
  | SECTTYPE_SRAM
  | SECTTYPE_WRAM0
  | SECTTYPE_WRAMX
  | SECTTYPE_OAM
  | SECTTYPE_HRAM
  | SECTTYPE_INVALID.

#[global] Instance SectionType_eq_dec : EqDecision SectionType.
Proof. solve_decision. Defined.

(** [struct Section], restricted to the members [section.c] reads or
    writes; the structure is declared in the header [link/section.h].
    Numeric members are unsigned machine integers in C; they are kept as
    integers here, and every operation [doSanityChecks] applies to them
    (comparison, bitwise and, one addition of two 16-bit values after
    promotion to [int]) is exact on them. *)
Record struct_Section : Set := mkSection {
  name : string;
  size : Z;
  type : SectionType;
  isAddressFixed : bool;
  org : Z;
  isBankFixed : bool;
  bank : Z;
  isAlignFixed : bool;
  alignMask : Z
}.

Definition set_type (t : SectionType) (s : struct_Section) : struct_Section :=
  mkSection (name s) (size s) t (isAddressFixed s) (org s)
            (isBankFixed s) (bank s) (isAlignFixed s) (alignMask s).

Definition set_isAddressFixed (b : bool) (s : struct_Section) : struct_Section :=
  mkSection (name s) (size s) (type s) b (org s)
            (isBankFixed s) (bank s) (isAlignFixed s) (alignMask s).

Definition set_org (a : Z) (s : struct_Section) : struct_Section :=
  mkSection (name s) (size s) (type s) (isAddressFixed s) a
            (isBankFixed s) (bank s) (isAlignFixed s) (alignMask s).

Definition set_isBankFixed (b : bool) (s : struct_Section) : struct_Section :=
  mkSection (name s) (size s) (type s) (isAddressFixed s) (org s)
            b (bank s) (isAlignFixed s) (alignMask s).

Definition set_bank (n : Z) (s : struct_Section) : struct_Section :=
  mkSection (name s) (size s) (type s) (isAddressFixed s) (org s)
            (isBankFixed s) n (isAlignFixed s) (alignMask s).

Definition set_isAlignFixed (b : bool) (s : struct_Section) : struct_Section :=
  mkSection (name s) (size s) (type s) (isAddressFixed s) (org s)
            (isBankFixed s) (bank s) b (alignMask s).

(** The linker options read by this file ([is32kMode], [isWRA0Mode],
    [isDmgMode], [beVerbose]); they are globals set by the command line. *)
Record Options : Set := mkOptions {
  is32kMode : bool;
  isWRA0Mode : bool;
  isDmgMode : bool;
  beVerbose : bool
}.

(** The [BANK_MIN_*] and [BANK_MAX_*] macros that fill [bankranges].  They
    are defined in a header, so the tables below take them as a parameter. *)
Record BankLimits : Set := mkBankLimits {
  BANK_MIN_ROM0 : Z;  BANK_MAX_ROM0 : Z;
  BANK_MIN_ROMX : Z;  BANK_MAX_ROMX : Z;
  BANK_MIN_VRAM : Z;  BANK_MAX_VRAM : Z;
  BANK_MIN_SRAM : Z;  BANK_MAX_SRAM : Z;
  BANK_MIN_WRAM0 : Z; BANK_MAX_WRAM0 : Z;
  BANK_MIN_WRAMX : Z; BANK_MAX_WRAMX : Z;
  BANK_MIN_OAM : Z;   BANK_MAX_OAM : Z;
  BANK_MIN_HRAM : Z;  BANK_MAX_HRAM : Z
}.

(** Everything the file prints: one constructor per well-formed
    [warnx]/[errx] call, carrying the arguments the call passes.  The bank
    diagnostic has two wordings, chosen by [minbank == maxbank]; [single]
    records the choice.  The call of lines 158-159 has no constructor: its
    arguments do not fit its format (see [checkSize]). *)
Inductive Diagnostic : Set :=
  | InvalidType (n : string)
  | RomxBankWith32k (n : string)
  | WramxBankWithWra0 (n : string)
  | VramBank1WithDmg (n : string)
  | BankOutOfRange (single : bool) (n : string) (b minbank maxbank : Z)
  | AddressAlignMismatch (n : string)
  | AddressOutOfRange (n : string) (a first last : Z)
  | EndAddressTooHigh (n : string) (e limit : Z)
  | NameInUse (n : string)
  | HashCollision
  | SanityChecksFailed.

#[global] Instance Diagnostic_eq_dec : EqDecision Diagnostic.
Proof. solve_decision. Defined.

(** ** Static layout tables

    Arrays indexed by [enum SectionType]; an index outside the enumeration
    is outside the array, which is [None] here. *)

Definition startaddr (t : SectionType) : option Z :=
  match t with
  | SECTTYPE_ROM0 => Some 0x0000
  | SECTTYPE_ROMX => Some 0x4000
  | SECTTYPE_VRAM => Some 0x8000
  | SECTTYPE_SRAM => Some 0xA000
  | SECTTYPE_WRAM0 => Some 0xC000
  | SECTTYPE_WRAMX => Some 0xD000
  | SECTTYPE_OAM => Some 0xFE00
  | SECTTYPE_HRAM => Some 0xFF80
  | SECTTYPE_INVALID => None
  end.

Definition maxsize (t : SectionType) : option Z :=
  match t with
  | SECTTYPE_ROM0 => Some 0x4000
  | SECTTYPE_ROMX => Some 0x4000
  | SECTTYPE_VRAM => Some 0x2000
  | SECTTYPE_SRAM => Some 0x2000
  | SECTTYPE_WRAM0 => Some 0x1000
  | SECTTYPE_WRAMX => Some 0x1000
  | SECTTYPE_OAM => Some 0x00A0
  | SECTTYPE_HRAM => Some 0x007F
  | SECTTYPE_INVALID => None
  end.

Definition bankranges (lim : BankLimits) (t : SectionType) : option (Z * Z) :=
  match t with
  | SECTTYPE_ROM0 => Some (BANK_MIN_ROM0 lim, BANK_MAX_ROM0 lim)
  | SECTTYPE_ROMX => Some (BANK_MIN_ROMX lim, BANK_MAX_ROMX lim)
  | SECTTYPE_VRAM => Some (BANK_MIN_VRAM lim, BANK_MAX_VRAM lim)
  | SECTTYPE_SRAM => Some (BANK_MIN_SRAM lim, BANK_MAX_SRAM lim)
  | SECTTYPE_WRAM0 => Some (BANK_MIN_WRAM0 lim, BANK_MAX_WRAM0 lim)
  | SECTTYPE_WRAMX => Some (BANK_MIN_WRAMX lim, BANK_MAX_WRAMX lim)
  | SECTTYPE_OAM => Some (BANK_MIN_OAM lim, BANK_MAX_OAM lim)
  | SECTTYPE_HRAM => Some (BANK_MIN_HRAM lim, BANK_MAX_HRAM lim)
  | SECTTYPE_INVALID => None
  end.

Definition typeNames (t : SectionType) : option string :=
  match t with
  | SECTTYPE_ROM0 => Some "ROM0"%string
  | SECTTYPE_ROMX => Some "ROMX"%string
  | SECTTYPE_VRAM => Some "VRAM"%string
  | SECTTYPE_SRAM => Some "SRAM"%string
  | SECTTYPE_WRAM0 => Some "WRAM0"%string
  | SECTTYPE_WRAMX => Some "WRAMX"%string
  | SECTTYPE_OAM => Some "OAM"%string
  | SECTTYPE_HRAM => Some "HRAM"%string
  | SECTTYPE_INVALID => None
  end.

(** Modelled from the spec: [endaddr] is an inline helper of the header
    [link/section.h], which is not among the sources.  The specification
    gives it as the base address plus the max size minus one, computed from
    the two tables. *)
Definition endaddr (t : SectionType) : option Z :=
  a ← startaddr t; m ← maxsize t; Some (a + m - 1).

(** The sections on which [doSanityChecks] has a result: the type is in
    the enumeration and the size is at most the max size of the type. *)
Definition withinSize (s : struct_Section) : Prop :=
  ∃ maxsz, maxsize (type s) = Some maxsz ∧ size s ≤ maxsz.

(** ** The monad of [doSanityChecks]

    The function works on one section through a pointer, sets the static
    flag [sanityChecksFailed] and prints with [warnx].  A computation takes
    the section and the flag and gives a result, their new values and what
    was printed; [None] is a run whose behaviour C leaves
    undefined: a table read outside its bounds, or a [warnx] call whose
    arguments do not fit its format. *)

Definition Chk (A : Type) : Type :=
  struct_Section * bool → option (A * (struct_Section * bool) * list Diagnostic).

#[global] Instance Chk_ret : MRet Chk :=
  λ A a st, Some (a, st, []).

#[global] Instance Chk_bind : MBind Chk :=
  λ A B k m st,
    match m st with
    | None => None
    | Some (a, st1, d1) =>
        match k a st1 with
        | None => None
        | Some (b, st2, d2) => Some (b, st2, d1 ++ d2)
        end
    end.

Definition getSection : Chk struct_Section :=
  λ st, Some (fst st, st, []).

Definition modifySection (f : struct_Section → struct_Section) : Chk unit :=
  λ st, Some (tt, (f (fst st), snd st), []).

(** The [fail] macro: [warnx] then [sanityChecksFailed = true]. *)
Definition fail (d : Diagnostic) : Chk unit :=
  λ st, Some (tt, (fst st, true), [d]).

(** Reading [table[type]]. *)
Definition index {A : Type} (table : SectionType → option A) (t : SectionType) : Chk A :=
  λ st, match table t with
        | Some v => Some (v, st, [])
        | None => None
        end.

Definition when (c : bool) (m : Chk unit) : Chk unit :=
  if c then m else mret tt.

(** A statement whose behaviour C leaves undefined: the run has no result. *)
Definition undefinedBehaviour {A : Type} : Chk A :=
  λ st, None.

(** ** [doSanityChecks], statement by statement *)

Section Validator.

Context (lim : BankLimits) (opt : Options).

(** Lines 119-120. *)
Definition checkType : Chk unit :=
  section ← getSection;
  when (bool_decide (type section = SECTTYPE_INVALID))
       (fail (InvalidType (name section))).

(** Lines 121-127. *)
Definition check32kMode : Chk unit :=
  section ← getSection;
  when (is32kMode opt && bool_decide (type section = SECTTYPE_ROMX))
       (if isBankFixed section && negb (bank section =? 1)
        then fail (RomxBankWith32k (name section))
        else modifySection (set_type SECTTYPE_ROM0)).

(** Lines 128-134. *)
Definition checkWRA0Mode : Chk unit :=
  section ← getSection;
  when (isWRA0Mode opt && bool_decide (type section = SECTTYPE_WRAMX))
       (if isBankFixed section && negb (bank section =? 1)
        then fail (WramxBankWithWra0 (name section))
        else modifySection (set_type SECTTYPE_WRAMX)).

(** Lines 135-137. *)
Definition checkDmgMode : Chk unit :=
  section ← getSection;
  when (isDmgMode opt && bool_decide (type section = SECTTYPE_VRAM)
        && (bank section =? 1))
       (fail (VramBank1WithDmg (name section))).

(** Lines 143-144. *)
Definition checkAlignment : Chk unit :=
  section ← getSection;
  when (isAlignFixed section && (alignMask section =? 1))
       (modifySection (set_isAlignFixed false)).

(** Lines 149-154. *)
Definition checkBank (minbank maxbank : Z) : Chk unit :=
  section ← getSection;
  when (isBankFixed section && (bank section <? minbank)
        && (bank section >? maxbank))
       (fail (BankOutOfRange (minbank =? maxbank) (name section) (bank section)
                minbank maxbank)).

(** Lines 157-159.  The format of the call has three conversions, a
    string and two numbers, and the call passes two arguments, the size and
    the maximum: [warnx] reads the size as a string pointer and then an
    argument that was not passed.  The behaviour of that call is undefined,
    so a run that reaches it has no result. *)
Definition checkSize : Chk unit :=
  section ← getSection;
  maxsz ← index maxsize (type section);
  when (size section >? maxsz)
       undefinedBehaviour.

(** Lines 163-166. *)
Definition tightenBank (minbank maxbank : Z) : Chk unit :=
  when (minbank =? maxbank)
       (modifySection (set_bank minbank);;
        modifySection (set_isBankFixed true)).

(** Lines 168-183. *)
Definition checkAlignAddress : Chk unit :=
  section ← getSection;
  when (isAlignFixed section)
       (let type := type section in
        if isAddressFixed section then
          when (negb (Z.land (org section) (alignMask section) =? 0))
               (fail (AddressAlignMismatch (name section)));;
          modifySection (set_isAlignFixed false)
        else
          last ← index endaddr type;
          first ← index startaddr type;
          when (Z.land last (alignMask section) =? first)
               (modifySection (set_org first);;
                modifySection (set_isAlignFixed false);;
                modifySection (set_isAddressFixed true))).

(** Lines 185-197. *)
Definition checkAddress : Chk unit :=
  section ← getSection;
  when (isAddressFixed section)
       (first ← index startaddr (type section);
        last ← index endaddr (type section);
        when ((org section <? first) || (org section >? last))
             (fail (AddressOutOfRange (name section) (org section) first last));;
        when (org section + size section >? last + 1)
             (fail (EndAddressTooHigh (name section)
                      (org section + size section) (last + 1)))).

(** [doSanityChecks] (lines 109-200). *)
Definition doSanityChecks : Chk unit :=
  checkType;;
  check32kMode;;
  checkWRA0Mode;;
  checkDmgMode;;
  checkAlignment;;
  section ← getSection;
  '(minbank, maxbank) ← index (bankranges lim) (type section);
  checkBank minbank maxbank;;
  checkSize;;
  tightenBank minbank maxbank;;
  checkAlignAddress;;
  checkAddress.

End Validator.

(** ** The registry and the sweep *)

(** Modelled from the spec: the hash map of [hashmap.h] is not among the
    sources.  The specification describes it as an associative store keyed
    by name with [insert(key,value)->collided], [lookup(key)->value?],
    [forEach(visitor)] in unspecified order, and [clear()]; whether an
    insertion collides is advisory and depends on the hash alone, so it is
    an arbitrary function [collides] of the map and the key. *)
Abbreviation HashMap := (gmap string struct_Section).

Definition hash_GetElement (map : HashMap) (key : string) : option struct_Section :=
  map !! key.

Definition hash_AddElement (collides : HashMap → string → bool)
    (map : HashMap) (key : string) (element : struct_Section) : HashMap * bool :=
  (<[key := element]> map, collides map key).

Definition hash_EmptyMap (map : HashMap) : HashMap := ∅.

(** The entries [hash_ForEach] visits, in the order it visits them. *)
Definition hash_Entries (map : HashMap) : list (string * struct_Section) :=
  map_to_list map.

(** The globals of the file: the map [sections] and the static flag
    [sanityChecksFailed]. *)
Record LinkState : Type := mkLinkState {
  sections : HashMap;
  sanityChecksFailed : bool
}.

(** How a call ends: it returns, or [errx] ends the process with a status,
    or the run is undefined (see [Chk]).  Both defined ends carry the
    globals as the call left them and what was printed. *)
Inductive Outcome (A : Type) : Type :=
  | Returns (a : A) (st : LinkState) (out : list Diagnostic)
  | Exits (status : Z) (st : LinkState) (out : list Diagnostic)
  | Undefined.

Arguments Returns {A} a st out.
Arguments Exits {A} status st out.
Arguments Undefined {A}.

Definition stateAfter {A : Type} (o : Outcome A) : option LinkState :=
  match o with
  | Returns _ st _ => Some st
  | Exits _ st _ => Some st
  | Undefined => None
  end.

Definition printed {A : Type} (o : Outcome A) : list Diagnostic :=
  match o with
  | Returns _ _ out => out
  | Exits _ _ out => out
  | Undefined => []
  end.

Section Registry.

Context (lim : BankLimits) (opt : Options) (collides : HashMap → string → bool).

(** [sect_ForEach], with the callback working on each stored section in
    place: the section a callback leaves replaces the stored one. *)
Fixpoint forEach (callback : Chk unit) (entries : list (string * struct_Section))
    (st : LinkState) : option (LinkState * list Diagnostic) :=
  match entries with
  | [] => Some (st, [])
  | (key, section) :: rest =>
      match callback (section, sanityChecksFailed st) with
      | None => None
      | Some (_, (section', failed), d) =>
          match forEach callback rest
                  (mkLinkState (<[key := section']> (sections st)) failed) with
          | None => None
          | Some (st', d') => Some (st', d ++ d')
          end
      end
  end.

Definition sect_ForEach (callback : Chk unit) (st : LinkState)
    : option (LinkState * list Diagnostic) :=
  forEach callback (hash_Entries (sections st)) st.

(** [sect_AddSection] (lines 84-95). *)
Definition sect_AddSection (section : struct_Section) (st : LinkState) : Outcome unit :=
  match hash_GetElement (sections st) (name section) with
  | Some _ => Exits 1 st [NameInUse (name section)]
  | None =>
      let '(map, collided) :=
        hash_AddElement collides (sections st) (name section) section in
      Returns tt (mkLinkState map (sanityChecksFailed st))
              (if beVerbose opt && collided then [HashCollision] else [])
  end.

(** [sect_GetSection] (lines 97-100); [None] is the null pointer. *)
Definition sect_GetSection (n : string) (st : LinkState) : option struct_Section :=
  hash_GetElement (sections st) n.

(** [sect_CleanupSections] (lines 102-105). *)
Definition sect_CleanupSections (st : LinkState) : Outcome unit :=
  Returns tt (mkLinkState (hash_EmptyMap (sections st)) (sanityChecksFailed st)) [].

(** [sect_DoSanityChecks] (lines 202-207). *)
Definition sect_DoSanityChecks (st : LinkState) : Outcome unit :=
  match sect_ForEach (doSanityChecks lim opt) st with
  | None => Undefined
  | Some (st', d) =>
      if sanityChecksFailed st'
      then Exits 1 st' (d ++ [SanityChecksFailed])
      else Returns tt st' d
  end.

End Registry.

(** ** Closed form of [doSanityChecks]

    What the function leaves in each member and what it prints when it has
    a result, written as expressions of the section it is given.
    [doSanityChecks_closed] below proves that these are the results of the
    function on every section within size. *)

Definition nonempty (d : list Diagnostic) : bool :=
  match d with [] => false | _ => true end.

(** [Runs m s a s' d]: from section [s], whatever the flag, [m] gives [a],
    leaves the section [s'], prints [d], and sets the flag exactly when it
    printed. *)
Definition Runs {A : Type} (m : Chk A) (s : struct_Section) (a : A)
    (s' : struct_Section) (d : list Diagnostic) : Prop :=
  ∀ f, m (s, f) = Some (a, (s', f || nonempty d), d).

Section ClosedForm.

Context (lim : BankLimits) (opt : Options).

Definition pinnedOffBank1 (s : struct_Section) : bool :=
  isBankFixed s && negb (bank s =? 1).

(** The type after lines 121-134. *)
Definition aliasedType (s : struct_Section) : SectionType :=
  if is32kMode opt && bool_decide (type s = SECTTYPE_ROMX) && negb (pinnedOffBank1 s)
  then SECTTYPE_ROM0 else type s.

Definition minbankOf (t : SectionType) : Z := default 0 (fst <$> bankranges lim t).
Definition maxbankOf (t : SectionType) : Z := default 0 (snd <$> bankranges lim t).
Definition firstOf (t : SectionType) : Z := default 0 (startaddr t).
Definition lastOf (t : SectionType) : Z := default 0 (endaddr t).
Definition maxsizeOf (t : SectionType) : Z := default 0 (maxsize t).

(** The alignment flag after lines 143-144. *)
Definition alignKept (s : struct_Section) : bool :=
  isAlignFixed s && negb (alignMask s =? 1).

(** Whether lines 177-182 turn the alignment into an address. *)
Definition tightened (s : struct_Section) : bool :=
  alignKept s && negb (isAddressFixed s)
  && (Z.land (lastOf (aliasedType s)) (alignMask s) =? firstOf (aliasedType s)).

Definition degenerate (s : struct_Section) : bool :=
  minbankOf (aliasedType s) =? maxbankOf (aliasedType s).

Definition normalized (s : struct_Section) : struct_Section :=
  mkSection (name s) (size s) (aliasedType s)
    (isAddressFixed s || tightened s)
    (if tightened s then firstOf (aliasedType s) else org s)
    (degenerate s || isBankFixed s)
    (if degenerate s then minbankOf (aliasedType s) else bank s)
    (alignKept s && negb (isAddressFixed s) && negb (tightened s))
    (alignMask s).

Definition diag32k (s : struct_Section) : list Diagnostic :=
  if is32kMode opt && bool_decide (type s = SECTTYPE_ROMX) && pinnedOffBank1 s
  then [RomxBankWith32k (name s)] else [].

Definition diagWRA0 (s : struct_Section) : list Diagnostic :=
  if isWRA0Mode opt && bool_decide (type s = SECTTYPE_WRAMX) && pinnedOffBank1 s
  then [WramxBankWithWra0 (name s)] else [].

Definition diagDmg (s : struct_Section) : list Diagnostic :=
  if isDmgMode opt && bool_decide (type s = SECTTYPE_VRAM) && (bank s =? 1)
  then [VramBank1WithDmg (name s)] else [].

Definition diagBank (s : struct_Section) : list Diagnostic :=
  let t := aliasedType s in
  if isBankFixed s && (bank s <? minbankOf t) && (bank s >? maxbankOf t)
  then [BankOutOfRange (minbankOf t =? maxbankOf t) (name s) (bank s)
          (minbankOf t) (maxbankOf t)]
  else [].

Definition diagAlign (s : struct_Section) : list Diagnostic :=
  if alignKept s && isAddressFixed s && negb (Z.land (org s) (alignMask s) =? 0)
  then [AddressAlignMismatch (name s)] else [].

Definition diagRange (s : struct_Section) : list Diagnostic :=
  let n := normalized s in
  if isAddressFixed n
     && ((org n <? firstOf (type n)) || (org n >? lastOf (type n)))
  then [AddressOutOfRange (name s) (org n) (firstOf (type n)) (lastOf (type n))]
  else [].

Definition diagEnd (s : struct_Section) : list Diagnostic :=
  let n := normalized s in
  if isAddressFixed n && (org n + size s >? lastOf (type n) + 1)
  then [EndAddressTooHigh (name s) (org n + size s) (lastOf (type n) + 1)]
  else [].

Definition diagnostics (s : struct_Section) : list Diagnostic :=
  diag32k s ++ diagWRA0 s ++ diagDmg s ++ diagBank s
  ++ diagAlign s ++ diagRange s ++ diagEnd s.

End ClosedForm.

(** ** Sessions

    The calls a driver can make, and the states the globals can be in some
    calls after a given state.  The state an [errx] leaves counts as well,
    so the relation covers a host that keeps the globals after a fatal
    error. *)

Inductive Call : Type :=
  | CallAddSection (section : struct_Section)
  | CallGetSection (n : string)
  | CallCleanupSections
  | CallDoSanityChecks.

Definition perform (lim : BankLimits) (opt : Options)
    (collides : HashMap → string → bool) (c : Call) (st : LinkState) : Outcome unit :=
  match c with
  | CallAddSection section => sect_AddSection opt collides section st
  | CallGetSection n => let _ := sect_GetSection n st in Returns tt st []
  | CallCleanupSections => sect_CleanupSections st
  | CallDoSanityChecks => sect_DoSanityChecks lim opt st
  end.

Inductive later (lim : BankLimits) (opt : Options)
    (collides : HashMap → string → bool) : LinkState → LinkState → Prop :=
  | later_now st : later lim opt collides st st
  | later_call st c st1 st2 :
      stateAfter (perform lim opt collides c st) = Some st1 →
      later lim opt collides st1 st2 →
      later lim opt collides st st2.

Definition allWithinSize (map : HashMap) : Prop :=
  ∀ key section, map !! key = Some section → withinSize section.

(** A section passes when a run on it, started with the flag clear, prints
    nothing. *)
Definition passes (lim : BankLimits) (opt : Options) (s : struct_Section) : Prop :=
  ∃ s', doSanityChecks lim opt (s, false) = Some (tt, (s', false), []).

(** Every section is stored under its own name. *)
Definition keyed (map : HashMap) : Prop :=
  ∀ key section, map !! key = Some section → name section = key.

(** Closed form of a sweep over a list of entries: the map it leaves and
    what it prints. *)
Definition sweptMap (lim : BankLimits) (opt : Options)
    (entries : list (string * struct_Section)) (map : HashMap) : HashMap :=
  foldl (λ m e, <[e.1 := normalized lim opt e.2]> m) map entries.

Definition sweptDiags (lim : BankLimits) (opt : Options)
    (entries : list (string * struct_Section)) : list Diagnostic :=
  entries ≫= (λ e, diagnostics lim opt e.2).

(** ** A concrete platform

    One choice of bank limits (the Game Boy's bank counts), options, and
    sections used to instantiate the statements below. *)

Definition gbLimits : BankLimits :=
  mkBankLimits 0 0 1 511 0 1 0 15 0 0 1 7 0 0 0 0.

Definition noOptions : Options := mkOptions false false false false.
Definition opt32k : Options := mkOptions true false false false.
Definition optDmg : Options := mkOptions false false true false.
Definition noCollision : HashMap → string → bool := λ _ _, false.

(** Limits in which WRAMX has the single bank 3, the WRA0 option, and a
    floating WRAMX section: the setting in which a second run differs. *)
Definition oneWramxBank : BankLimits :=
  mkBankLimits 0 0 1 511 0 1 0 15 0 0 3 3 0 0 0 0.
Definition optWRA0 : Options := mkOptions false true false false.
Definition wramxFloating : struct_Section :=
  mkSection "stack" 0x100 SECTTYPE_WRAMX false 0 false 0 false 0.

(** A VRAM section whose bank member is 1 while its bank is not fixed. *)
Definition vramBank1Floating : struct_Section :=
  mkSection "tiles" 0x100 SECTTYPE_VRAM false 0 false 1 false 0.

(** A ROMX section pinned to a bank beyond [BANK_MAX_ROMX]. *)
Definition romxBank600 : struct_Section :=
  mkSection "far" 0x10 SECTTYPE_ROMX false 0 true 600 false 0.

(** A ROMX section aligned with the mask 0xC000 and no fixed address. *)
Definition romxAligned : struct_Section :=
  mkSection "code" 0x20 SECTTYPE_ROMX false 0 false 0 true 0xC000.

(** A ROM0 section with both an alignment (mask 3) and the odd address 1. *)
Definition rom0Misaligned : struct_Section :=
  mkSection "entry" 4 SECTTYPE_ROM0 true 1 false 0 true 3.

(** A floating ROMX section, and one pinned to bank 2. *)
Definition romxFloating : struct_Section :=
  mkSection "main" 0x100 SECTTYPE_ROMX false 0 false 7 false 0.
Definition romxBank2 : struct_Section :=
  mkSection "main" 0x100 SECTTYPE_ROMX false 0 true 2 false 0.

(** A WRAM0 section filling its region from the base address, and the
    same section one byte longer. *)
Definition wram0Full : struct_Section :=
  mkSection "vars" 0x1000 SECTTYPE_WRAM0 true 0xC000 false 5 false 0.
Definition wram0TooLong : struct_Section :=
  mkSection "vars" 0x1001 SECTTYPE_WRAM0 true 0xC000 false 5 false 0.

(** A ROM0 section with the alignment mask 1 and the odd address 1. *)
Definition rom0Mask1 : struct_Section :=
  mkSection "entry" 4 SECTTYPE_ROM0 true 1 false 0 true 1.

(** What [doSanityChecks] leaves of [romxAligned] and of [wram0Full]. *)
Definition romxAlignedChecked : struct_Section :=
  mkSection "code" 0x20 SECTTYPE_ROMX true 0x4000 false 0 false 0xC000.
Definition wram0FullChecked : struct_Section :=
  mkSection "vars" 0x1000 SECTTYPE_WRAM0 true 0xC000 true 0 false 0.

(** Globals with the flag set and an empty registry, and with the flag set
    and one section that passes every check. *)
Definition oneValid : LinkState :=
  mkLinkState (<["vars"%string := wram0Full]> ∅) false.
Definition oneValidChecked : LinkState :=
  mkLinkState (<["vars"%string := wram0FullChecked]> ∅) false.
Definition oneMisaligned : LinkState :=
  mkLinkState (<["entry"%string := rom0Misaligned]> ∅) false.
Definition failedEmpty : LinkState := mkLinkState ∅ true.
Definition failedThenValid : LinkState :=
  mkLinkState (<["vars"%string := wram0FullChecked]> ∅) true.

(** * Properties *)

(** ** Rules for computations *)

Lemma nonempty_app (d1 d2 : list Diagnostic) :
  nonempty (d1 ++ d2) = nonempty d1 || nonempty d2.
Proof. destruct d1; reflexivity. Qed.

Lemma Runs_bind {A B : Type} (m : Chk A) (k : A → Chk B) s a s1 d1 b s2 d2 :
  Runs m s a s1 d1 → Runs (k a) s1 b s2 d2 → Runs (m ≫= k) s b s2 (d1 ++ d2).
Proof.
  intros H1 H2 f. unfold mbind, Chk_bind. rewrite H1, H2.
  by rewrite nonempty_app, orb_assoc.
Qed.

Lemma Runs_ret {A : Type} (a : A) s : Runs (mret a) s a s [].
Proof. intros f. unfold mret, Chk_ret. cbn. by rewrite orb_false_r. Qed.

Lemma Runs_getSection s : Runs getSection s s s [].
Proof. intros f. unfold getSection. cbn. by rewrite orb_false_r. Qed.

Lemma Runs_modifySection g s : Runs (modifySection g) s tt (g s) [].
Proof. intros f. unfold modifySection. cbn. by rewrite orb_false_r. Qed.

Lemma Runs_fail x s : Runs (fail x) s tt s [x].
Proof. intros f. unfold fail. cbn. by rewrite orb_true_r. Qed.

Lemma Runs_index {A : Type} (table : SectionType → option A) t v s :
  table t = Some v → Runs (index table t) s v s [].
Proof. intros E f. unfold index. rewrite E. cbn. by rewrite orb_false_r. Qed.

Lemma bind_first_undefined {A B : Type} (m : Chk A) (k : A → Chk B) st :
  m st = None → (m ≫= k) st = None.
Proof. intros E. unfold mbind, Chk_bind. by rewrite E. Qed.

Lemma bind_undefined {A B : Type} (m : Chk A) (k : A → Chk B) s a s1 d1 :
  Runs m s a s1 d1 → (∀ f, k a (s1, f) = None) → ∀ f, (m ≫= k) (s, f) = None.
Proof. intros H1 H2 f. unfold mbind, Chk_bind. by rewrite H1, H2. Qed.

Lemma Runs_eq {A : Type} (m : Chk A) s a s1 d1 s2 d2 :
  Runs m s a s1 d1 → s1 = s2 → d1 = d2 → Runs m s a s2 d2.
Proof. by intros H <- <-. Qed.

(** Evaluation of a block on a section given by its members: unfold the
    monad, decide the tests, compare the two sides. *)
Ltac bool_hyps :=
  repeat match goal with
    | H : _ && _ = true |- _ => apply andb_prop in H as [? ?]
    | H : _ || _ = false |- _ => apply orb_false_elim in H as [? ?]
    | H : negb _ = true |- _ => apply negb_true_iff in H
    | H : negb _ = false |- _ => apply negb_false_iff in H
    | H : bool_decide _ = true |- _ => apply bool_decide_eq_true in H
    | H : Z.eqb _ _ = true |- _ => apply Z.eqb_eq in H
    | H : Z.eqb _ _ = false |- _ => apply Z.eqb_neq in H
    end.

Ltac split_tests :=
  repeat match goal with
    | |- context [bool_decide ?P] => destruct (bool_decide_reflect P)
    | |- context [Z.eqb ?a ?b] => destruct (Z.eqb a b) eqn:?
    | |- context [Z.ltb ?a ?b] => destruct (Z.ltb a b) eqn:?
    | |- context [Z.gtb ?a ?b] => destruct (Z.gtb a b) eqn:?
    end.

Ltac run_block s :=
  let f := fresh "f" in
  intros f; destruct s as [? ? ? [] ? [] ? [] ?];
  unfold when, mbind, Chk_bind, mret, Chk_ret, getSection, modifySection,
    fail, index, undefinedBehaviour;
  cbn in *;
  repeat match goal with
    | H : ?t = Some _ |- context [?t] => rewrite H; cbn
    end;
  split_tests; simplify_eq/=;
  rewrite ?orb_false_r, ?orb_true_r; try done.

Section BlockLemmas.

Context (lim : BankLimits) (opt : Options).

Lemma checkType_runs s :
  type s ≠ SECTTYPE_INVALID → Runs checkType s tt s [].
Proof. intros Hv. unfold checkType. run_block s. Qed.

Lemma checkType_invalid_runs s :
  type s = SECTTYPE_INVALID → Runs checkType s tt s [InvalidType (name s)].
Proof. intros Hv. unfold checkType. run_block s. Qed.

Lemma check32kMode_runs s :
  Runs (check32kMode opt) s tt (set_type (aliasedType opt s) s) (diag32k opt s).
Proof.
  unfold check32kMode, aliasedType, diag32k, pinnedOffBank1.
  destruct (is32kMode opt); run_block s.
Qed.

Lemma checkWRA0Mode_runs s :
  Runs (checkWRA0Mode opt) s tt s (diagWRA0 opt s).
Proof.
  unfold checkWRA0Mode, diagWRA0, pinnedOffBank1.
  destruct (isWRA0Mode opt); run_block s.
Qed.

Lemma checkDmgMode_runs s :
  Runs (checkDmgMode opt) s tt s (diagDmg opt s).
Proof.
  unfold checkDmgMode, diagDmg.
  destruct (isDmgMode opt); run_block s.
Qed.

Lemma checkAlignment_runs s :
  Runs checkAlignment s tt (set_isAlignFixed (alignKept s) s) [].
Proof. unfold checkAlignment, alignKept. run_block s. Qed.

Lemma checkBank_runs minbank maxbank s :
  Runs (checkBank minbank maxbank) s tt s
    (if isBankFixed s && (bank s <? minbank) && (bank s >? maxbank)
     then [BankOutOfRange (minbank =? maxbank) (name s) (bank s) minbank maxbank]
     else []).
Proof. unfold checkBank. run_block s. Qed.

Lemma checkSize_runs m s :
  maxsize (type s) = Some m → size s ≤ m →
  Runs checkSize s tt s [].
Proof. intros E Hle. unfold checkSize. run_block s; lia. Qed.

Lemma checkSize_undefined m s :
  maxsize (type s) = Some m → size s > m →
  ∀ f, checkSize (s, f) = None.
Proof. intros E Hgt. unfold checkSize. run_block s; lia. Qed.

Lemma tightenBank_runs minbank maxbank s :
  Runs (tightenBank minbank maxbank) s tt
    (set_isBankFixed ((minbank =? maxbank) || isBankFixed s)
       (set_bank (if minbank =? maxbank then minbank else bank s) s)) [].
Proof. unfold tightenBank. run_block s. Qed.

Lemma checkAlignAddress_runs first last s :
  startaddr (type s) = Some first → endaddr (type s) = Some last →
  Runs checkAlignAddress s tt
    (let t := isAlignFixed s && negb (isAddressFixed s)
              && (Z.land last (alignMask s) =? first) in
     set_isAddressFixed (isAddressFixed s || t)
       (set_isAlignFixed (isAlignFixed s && negb (isAddressFixed s) && negb t)
          (set_org (if t then first else org s) s)))
    (if isAlignFixed s && isAddressFixed s
        && negb (Z.land (org s) (alignMask s) =? 0)
     then [AddressAlignMismatch (name s)] else []).
Proof. intros E1 E2. unfold checkAlignAddress. run_block s. Qed.

Lemma checkAddress_runs first last s :
  startaddr (type s) = Some first → endaddr (type s) = Some last →
  Runs checkAddress s tt s
    ((if isAddressFixed s && ((org s <? first) || (org s >? last))
      then [AddressOutOfRange (name s) (org s) first last] else [])
     ++ (if isAddressFixed s && (org s + size s >? last + 1)
         then [EndAddressTooHigh (name s) (org s + size s) (last + 1)] else [])).
Proof. intros E1 E2. unfold checkAddress. run_block s. Qed.

End BlockLemmas.

(** ** The closed form is what [doSanityChecks] computes *)

Section ClosedFormLemmas.

Context (lim : BankLimits) (opt : Options).

Lemma valid_tables t :
  t ≠ SECTTYPE_INVALID →
  bankranges lim t = Some (minbankOf lim t, maxbankOf lim t)
  ∧ startaddr t = Some (firstOf t)
  ∧ endaddr t = Some (lastOf t)
  ∧ maxsize t = Some (maxsizeOf t).
Proof. by destruct t. Qed.

Lemma aliasedType_valid s :
  type s ≠ SECTTYPE_INVALID → aliasedType opt s ≠ SECTTYPE_INVALID.
Proof. unfold aliasedType. by case_match. Qed.

Lemma diagWRA0_alias s :
  diagWRA0 opt s = diagWRA0 opt (set_type (aliasedType opt s) s).
Proof.
  unfold diagWRA0, aliasedType, pinnedOffBank1.
  destruct s as [? ? [] ? ? [] ? ? ?]; cbn;
    destruct (is32kMode opt), (bank0 =? 1); cbn; reflexivity.
Qed.

Lemma diagDmg_alias s :
  diagDmg opt s = diagDmg opt (set_type (aliasedType opt s) s).
Proof.
  unfold diagDmg, aliasedType, pinnedOffBank1.
  destruct s as [? ? [] ? ? [] ? ? ?]; cbn;
    destruct (is32kMode opt), (bank0 =? 1); cbn; reflexivity.
Qed.

Lemma maxsizeOf_aliasedType s :
  maxsizeOf (aliasedType opt s) = maxsizeOf (type s).
Proof.
  unfold aliasedType. case_match; [|done].
  bool_hyps. by replace (type s) with SECTTYPE_ROMX.
Qed.

Lemma withinSize_valid s : withinSize s → type s ≠ SECTTYPE_INVALID.
Proof. intros (m & E & _) Hi. by rewrite Hi in E. Qed.

Lemma withinSize_size s : withinSize s → size s ≤ maxsizeOf (type s).
Proof. intros (m & E & Hle). unfold maxsizeOf. by rewrite E. Qed.

Lemma withinSize_intro s :
  type s ≠ SECTTYPE_INVALID → size s ≤ maxsizeOf (type s) → withinSize s.
Proof.
  intros Hv Hle. exists (maxsizeOf (type s)). split; [|done].
  by destruct (valid_tables _ Hv) as (_ & _ & _ & ?).
Qed.

Lemma doSanityChecks_closed s :
  withinSize s →
  Runs (doSanityChecks lim opt) s tt (normalized lim opt s) (diagnostics lim opt s).
Proof.
  intros Hw. pose proof (withinSize_valid s Hw) as Hv.
  pose proof (withinSize_size s Hw) as Hle.
  rewrite <- maxsizeOf_aliasedType in Hle.
  destruct (valid_tables _ (aliasedType_valid s Hv)) as (Eb & Ef & El & Em).
  unfold doSanityChecks.
  eapply Runs_eq.
  - eapply Runs_bind; [by apply checkType_runs|]; cbn beta.
    eapply Runs_bind; [apply check32kMode_runs|]; cbn beta.
    eapply Runs_bind; [apply checkWRA0Mode_runs|]; cbn beta.
    eapply Runs_bind; [apply checkDmgMode_runs|]; cbn beta.
    eapply Runs_bind; [apply checkAlignment_runs|]; cbn beta.
    eapply Runs_bind; [apply Runs_getSection|]; cbn beta.
    eapply Runs_bind; [eapply Runs_index; exact Eb|]; cbn beta iota.
    eapply Runs_bind; [apply checkBank_runs|]; cbn beta.
    eapply Runs_bind; [eapply checkSize_runs; [exact Em|by destruct s]|]; cbn beta.
    eapply Runs_bind; [apply tightenBank_runs|]; cbn beta.
    eapply Runs_bind; [apply checkAlignAddress_runs; [exact Ef|exact El]|]; cbn beta.
    apply checkAddress_runs; [exact Ef|exact El].
  - destruct s; reflexivity.
  - clear Eb Ef El Em Hv Hle Hw. unfold diagnostics.
    rewrite (diagWRA0_alias s), (diagDmg_alias s).
    destruct s; reflexivity.
Qed.

End ClosedFormLemmas.

(** ** Runs of [doSanityChecks] *)

Section RunLemmas.

Context (lim : BankLimits) (opt : Options).

Lemma doSanityChecks_valid s f :
  withinSize s →
  doSanityChecks lim opt (s, f)
  = Some (tt, (normalized lim opt s, f || nonempty (diagnostics lim opt s)),
          diagnostics lim opt s).
Proof. intros Hw. apply (doSanityChecks_closed lim opt s Hw f). Qed.

(** With a size over the max size the run reaches the call of line 158. *)
Lemma doSanityChecks_oversize s f :
  type s ≠ SECTTYPE_INVALID → size s > maxsizeOf (type s) →
  doSanityChecks lim opt (s, f) = None.
Proof.
  intros Hv Hgt. rewrite <- (maxsizeOf_aliasedType opt) in Hgt.
  destruct (valid_tables lim _ (aliasedType_valid opt s Hv)) as (Eb & _ & _ & Em).
  revert f. unfold doSanityChecks.
  eapply bind_undefined; [by apply checkType_runs|]; cbn beta.
  eapply bind_undefined; [apply check32kMode_runs|]; cbn beta.
  eapply bind_undefined; [apply checkWRA0Mode_runs|]; cbn beta.
  eapply bind_undefined; [apply checkDmgMode_runs|]; cbn beta.
  eapply bind_undefined; [apply checkAlignment_runs|]; cbn beta.
  eapply bind_undefined; [apply Runs_getSection|]; cbn beta.
  eapply bind_undefined; [eapply Runs_index; exact Eb|]; cbn beta iota.
  eapply bind_undefined; [apply checkBank_runs|]; cbn beta.
  intros f. apply bind_first_undefined.
  apply (checkSize_undefined (maxsizeOf (aliasedType opt s))); [exact Em|].
  by destruct s.
Qed.

(** With a type outside the enumeration the function prints the first
    diagnostic and then reads [bankranges] outside its bounds. *)
Lemma doSanityChecks_undefined s f :
  type s = SECTTYPE_INVALID → doSanityChecks lim opt (s, f) = None.
Proof.
  intros E. revert f. unfold doSanityChecks.
  eapply bind_undefined; [apply checkType_invalid_runs, E|]; cbn beta.
  eapply bind_undefined; [apply check32kMode_runs|]; cbn beta.
  eapply bind_undefined; [apply checkWRA0Mode_runs|]; cbn beta.
  eapply bind_undefined; [apply checkDmgMode_runs|]; cbn beta.
  eapply bind_undefined; [apply checkAlignment_runs|]; cbn beta.
  eapply bind_undefined; [apply Runs_getSection|]; cbn beta.
  intros f. unfold mbind, Chk_bind, index.
  replace (type _) with SECTTYPE_INVALID; [done|].
  destruct s; cbn in *; subst. unfold aliasedType; cbn.
  by rewrite andb_false_r.
Qed.

Lemma doSanityChecks_inv s f a s' f' d :
  doSanityChecks lim opt (s, f) = Some (a, (s', f'), d) →
  withinSize s
  ∧ s' = normalized lim opt s
  ∧ d = diagnostics lim opt s
  ∧ f' = f || nonempty d.
Proof.
  intros E. destruct (decide (type s = SECTTYPE_INVALID)) as [Hi|Hv].
  { by rewrite doSanityChecks_undefined in E. }
  destruct (Z_le_gt_dec (size s) (maxsizeOf (type s))) as [Hle|Hgt].
  - pose proof (withinSize_intro lim s Hv Hle) as Hw.
    rewrite doSanityChecks_valid in E by done. by simplify_eq.
  - by rewrite doSanityChecks_oversize in E.
Qed.

Lemma elem_of_diagnostics x s :
  x ∈ diagnostics lim opt s ↔
    x ∈ diag32k opt s ∨ x ∈ diagWRA0 opt s ∨ x ∈ diagDmg opt s
    ∨ x ∈ diagBank lim opt s ∨ x ∈ diagAlign s
    ∨ x ∈ diagRange lim opt s ∨ x ∈ diagEnd lim opt s.
Proof. unfold diagnostics. rewrite !elem_of_app. tauto. Qed.

Lemma nonempty_elem_of x (d : list Diagnostic) : x ∈ d → nonempty d = true.
Proof. destruct d; [by intros ?%elem_of_nil | done]. Qed.

End RunLemmas.

(** Decide membership in one of the pieces of [diagnostics]. *)
Ltac diag_cases :=
  unfold diag32k, diagWRA0, diagDmg, diagBank, diagAlign,
    diagRange, diagEnd in *;
  repeat match goal with
    | H : context [if ?c then _ else _] |- _ => destruct c eqn:?
    | |- context [if ?c then _ else _] => destruct c eqn:?
    end;
  repeat match goal with
    | H : _ ∈ [] |- _ => apply elem_of_nil in H; destruct H
    | H : _ ∈ [_] |- _ => apply list_elem_of_singleton in H
    end.

(** ** Properties of the sanity checks *)

(** C1.  For every section within size, whether or not its bank is fixed,
    the bank range check of [doSanityChecks] prints nothing: as long as
    each row of [bankranges] has its minimum at or below its maximum, no
    bank is both below the minimum and above the maximum, so the run ends
    without any out-of-range-bank diagnostic. *)
Theorem bank_range_check_never_fires lim opt s f :
  (∀ t lo hi, bankranges lim t = Some (lo, hi) → lo ≤ hi) →
  withinSize s →
  ∃ s' f' d,
    doSanityChecks lim opt (s, f) = Some (tt, (s', f'), d)
    ∧ ∀ single n b lo hi, BankOutOfRange single n b lo hi ∉ d.
Proof.
  intros Hord Hw. pose proof (withinSize_valid s Hw) as Hv.
  eexists _, _, _. split; [by apply doSanityChecks_valid|].
  intros single n b lo hi Hin. apply elem_of_diagnostics in Hin.
  destruct (valid_tables lim _ (aliasedType_valid opt s Hv)) as (Eb & _).
  apply Hord in Eb.
  destruct Hin as [H|[H|[H|[H|[H|[H|H]]]]]]; diag_cases; try discriminate.
  bool_hyps. lia.
Qed.

(** C2 (the code at the failing input).  In DMG mode a VRAM section whose
    bank member is 1 is reported and the run is marked failed although its
    bank is not fixed: the test of lines 135-137 reads [bank] without
    reading [isBankFixed]. *)
Theorem dmg_check_ignores_isBankFixed :
  isBankFixed vramBank1Floating = false
  ∧ doSanityChecks gbLimits optDmg (vramBank1Floating, false)
    = Some (tt, (vramBank1Floating, true), [VramBank1WithDmg "tiles"]).
Proof. split; reflexivity. Qed.

(** The DMG diagnostic in general: printed exactly when the mode is on, the
    section is VRAM and its bank member is 1. *)
Lemma dmg_diagnostic_iff lim opt s f s' f' d :
  doSanityChecks lim opt (s, f) = Some (tt, (s', f'), d) →
  VramBank1WithDmg (name s) ∈ d
  ↔ isDmgMode opt = true ∧ type s = SECTTYPE_VRAM ∧ bank s = 1.
Proof.
  intros (Hv & -> & -> & ->)%doSanityChecks_inv.
  rewrite elem_of_diagnostics. split.
  - intros [H|[H|[H|[H|[H|[H|H]]]]]]; diag_cases; try discriminate.
    by bool_hyps.
  - intros (E1 & E2 & E3). do 2 right. left. unfold diagDmg.
    rewrite E1, E2, E3. cbn. by apply list_elem_of_singleton.
Qed.


(** C4, amended.  A section within size with both its alignment and its
    address fixed always leaves [doSanityChecks] with its alignment no
    longer fixed; the mismatch diagnostic is printed, and the run marked
    failed, exactly when the mask is not 1 and the address has a bit of the
    mask set. *)
Theorem align_with_address_always_cleared lim opt s f :
  withinSize s →
  isAlignFixed s = true →
  isAddressFixed s = true →
  ∃ s' f' d,
    doSanityChecks lim opt (s, f) = Some (tt, (s', f'), d)
    ∧ isAlignFixed s' = false
    ∧ ((∃ n, AddressAlignMismatch n ∈ d)
       ↔ alignMask s ≠ 1 ∧ Z.land (org s) (alignMask s) ≠ 0)
    ∧ (alignMask s ≠ 1 → Z.land (org s) (alignMask s) ≠ 0 →
       AddressAlignMismatch (name s) ∈ d ∧ f' = true).
Proof.
  intros Hw Hal Had.
  eexists _, _, _. split; [by apply doSanityChecks_valid|].
  assert (Hiff : ∀ n, AddressAlignMismatch n ∈ diagnostics lim opt s
                 ↔ n = name s ∧ alignMask s ≠ 1 ∧ Z.land (org s) (alignMask s) ≠ 0).
  { intros n. rewrite elem_of_diagnostics. unfold diagAlign, alignKept.
    rewrite Hal, Had. cbn. rewrite andb_true_r. split.
    - intros [H|[H|[H|[H|[H|[H|H]]]]]]; diag_cases; try discriminate.
      simplify_eq. by bool_hyps.
    - intros (-> & H1 & H2). do 4 right. left.
      apply Z.eqb_neq in H1, H2. rewrite H1, H2. cbn.
      by apply list_elem_of_singleton. }
  split; [cbn; by rewrite Had, andb_false_r|]. split.
  - split; [intros [n Hn]; apply Hiff in Hn as (_ & ? & ?); done|].
    intros [H1 H2]. exists (name s). by apply Hiff.
  - intros H1 H2. assert (Hin : AddressAlignMismatch (name s) ∈ diagnostics lim opt s)
      by by apply Hiff.
    split; [done|]. rewrite (nonempty_elem_of _ _ Hin). apply orb_true_r.
Qed.

(** C5.  In 32k mode a ROMX section within size whose bank is fixed to a
    bank other than 1 is reported, the run is marked failed and its type is
    left as it was; every other ROMX section within size (bank not fixed,
    or fixed to 1) becomes a ROM0 section and none of the mode diagnostics
    is printed for it. *)
Theorem romx_in_32k_mode lim opt s f :
  is32kMode opt = true →
  type s = SECTTYPE_ROMX →
  withinSize s →
  ∃ s' f' d,
    doSanityChecks lim opt (s, f) = Some (tt, (s', f'), d)
    ∧ (isBankFixed s = true ∧ bank s ≠ 1 →
       RomxBankWith32k (name s) ∈ d ∧ f' = true ∧ type s' = SECTTYPE_ROMX)
    ∧ (isBankFixed s = false ∨ bank s = 1 →
       type s' = SECTTYPE_ROM0
       ∧ ∀ n, (RomxBankWith32k n ∉ d) ∧ (WramxBankWithWra0 n ∉ d)
              ∧ (VramBank1WithDmg n ∉ d)).
Proof.
  intros H32 Hty Hw.
  eexists _, _, _. split; [by apply doSanityChecks_valid|]. split.
  - intros [Hfix Hb%Z.eqb_neq].
    assert (Hin : RomxBankWith32k (name s) ∈ diagnostics lim opt s).
    { apply elem_of_diagnostics. left. unfold diag32k, pinnedOffBank1.
      rewrite H32, Hty, Hfix, Hb. cbn. by apply list_elem_of_singleton. }
    split; [done|]. split.
    + rewrite (nonempty_elem_of _ _ Hin). apply orb_true_r.
    + cbn. unfold aliasedType, pinnedOffBank1.
      by rewrite H32, Hty, Hfix, Hb.
  - intros Hfree.
    assert (Hp : pinnedOffBank1 s = false).
    { unfold pinnedOffBank1. destruct Hfree as [-> | ->]; [done|].
      cbn. apply andb_false_r. }
    assert (Ha : aliasedType opt s = SECTTYPE_ROM0).
    { unfold aliasedType. by rewrite H32, Hty, Hp. }
    split; [done|]. intros n.
    rewrite !elem_of_diagnostics. unfold diag32k, diagWRA0, diagDmg.
    rewrite Hty, Hp, !andb_false_r. cbn.
    split_and!; intros [H|[H|[H|[H|[H|[H|H]]]]]]; diag_cases;
      discriminate.
Qed.

(** C6 (the code at the failing input).  [wram0TooLong] has its address
    fixed at the first address of its region and a size one over the
    region's max size.  The run on it has no result: before the end-address
    check of line 193 it reaches the size check, whose [warnx] call at line
    158 is given the size where its format expects the name and one
    argument too few. *)
Theorem fixed_address_oversize_undefined :
  isAddressFixed wram0TooLong = true
  ∧ startaddr (type wram0TooLong) = Some (org wram0TooLong)
  ∧ maxsize (type wram0TooLong) = Some (size wram0TooLong - 1)
  ∧ doSanityChecks gbLimits noOptions (wram0TooLong, false) = None.
Proof. split_and!; reflexivity. Qed.

(** C7.  When the bank range of the type the run leaves in the section is
    a single bank, a section within size leaves [doSanityChecks] with that
    bank and with its bank fixed, whatever its bank and flag were on
    entry. *)
Theorem degenerate_bank_range_forces_bank lim opt s f :
  withinSize s →
  ∃ s' f' d,
    doSanityChecks lim opt (s, f) = Some (tt, (s', f'), d)
    ∧ ∀ b, bankranges lim (type s') = Some (b, b) →
           bank s' = b ∧ isBankFixed s' = true.
Proof.
  intros Hw. pose proof (withinSize_valid s Hw) as Hv.
  destruct (valid_tables lim _ (aliasedType_valid opt s Hv)) as (Eb & _).
  eexists _, _, _. split; [by apply doSanityChecks_valid|].
  cbn. intros b Hb. rewrite Eb in Hb. injection Hb as Hmin Hmax.
  unfold degenerate. rewrite Hmin, Hmax, Z.eqb_refl. done.
Qed.

(** ** Properties of the registry *)

(** C8.  Adding a section whose name is already stored ends with the
    name-in-use error and leaves the globals as they were.  Adding two
    sections with distinct names, neither stored yet, returns both times;
    afterwards [sect_GetSection] gives back each of them under its name,
    gives for any other name what it gave before, and a name that is not
    stored gives the null result. *)
Theorem registry_insert_lookup opt collides st s1 s2 :
  name s1 ≠ name s2 →
  sect_GetSection (name s1) st = None →
  sect_GetSection (name s2) st = None →
  ∃ st1 out1 st2 out2,
    sect_AddSection opt collides s1 st = Returns tt st1 out1
    ∧ sect_AddSection opt collides s2 st1 = Returns tt st2 out2
    ∧ sect_GetSection (name s1) st2 = Some s1
    ∧ sect_GetSection (name s2) st2 = Some s2
    ∧ (∀ n, n ≠ name s1 → n ≠ name s2 →
            sect_GetSection n st2 = sect_GetSection n st)
    ∧ (∀ n, n ≠ name s1 → n ≠ name s2 → sect_GetSection n st = None →
            sect_GetSection n st2 = None)
    ∧ (∀ n st' st'' out, sect_CleanupSections st' = Returns tt st'' out →
            sect_GetSection n st'' = None)
    ∧ (∀ st' s, is_Some (sect_GetSection (name s) st') →
            sect_AddSection opt collides s st' = Exits 1 st' [NameInUse (name s)])
    ∧ (∀ s, name s = name s1 ∨ name s = name s2 →
            sect_AddSection opt collides s st2 = Exits 1 st2 [NameInUse (name s)]).
Proof.
  intros Hne H1 H2.
  unfold sect_GetSection, hash_GetElement in *.
  assert (Hdup : ∀ st' s, is_Some (sections st' !! name s) →
            sect_AddSection opt collides s st' = Exits 1 st' [NameInUse (name s)]).
  { intros st' s [x Hx]. unfold sect_AddSection, hash_GetElement. by rewrite Hx. }
  eexists _, _, _, _. split_and!.
  - unfold sect_AddSection, hash_GetElement, hash_AddElement. by rewrite H1.
  - unfold sect_AddSection, hash_GetElement, hash_AddElement. cbn.
    by rewrite lookup_insert_ne, H2.
  - cbn. rewrite lookup_insert_ne by done. apply lookup_insert_eq.
  - cbn. apply lookup_insert_eq.
  - intros n Hn1 Hn2. cbn. by rewrite !lookup_insert_ne.
  - intros n Hn1 Hn2 Hn. cbn. by rewrite !lookup_insert_ne.
  - intros n st' st'' out E. unfold sect_CleanupSections, hash_EmptyMap in E.
    simplify_eq. cbn. apply lookup_empty.
  - exact Hdup.
  - intros s [E|E]; apply Hdup; rewrite E; cbn.
    + rewrite lookup_insert_ne by done. rewrite lookup_insert_eq. by eexists.
    + rewrite lookup_insert_eq. by eexists.
Qed.

(** ** Idempotence *)

Section Idempotence.

Context (lim : BankLimits) (opt : Options).

Lemma diagnostics_nil_inv s :
  diagnostics lim opt s = [] →
  diag32k opt s = [] ∧ diagWRA0 opt s = [] ∧ diagDmg opt s = []
  ∧ diagBank lim opt s = [] ∧ diagAlign s = []
  ∧ diagRange lim opt s = [] ∧ diagEnd lim opt s = [].
Proof.
  unfold diagnostics. intros H.
  repeat (apply app_eq_nil in H as [? H]; split; [done|]). done.
Qed.

(** After a run without the 32k diagnostic, 32k mode finds no ROMX type. *)
Lemma aliased_not_ROMX s :
  diag32k opt s = [] →
  is32kMode opt && bool_decide (aliasedType opt s = SECTTYPE_ROMX) = false.
Proof.
  unfold diag32k, aliasedType.
  destruct (is32kMode opt); [cbn|done].
  destruct (bool_decide_reflect (type s = SECTTYPE_ROMX)) as [E|E]; cbn.
  - destruct (pinnedOffBank1 s); [done|]. done.
  - intros _. by apply bool_decide_eq_false_2.
Qed.

Lemma aliasedType_normalized s :
  diag32k opt s = [] →
  aliasedType opt (normalized lim opt s) = aliasedType opt s.
Proof.
  intros H%aliased_not_ROMX. unfold aliasedType at 1. cbn.
  by rewrite H.
Qed.

Lemma aliasedType_cases s :
  aliasedType opt s = type s ∨ aliasedType opt s = SECTTYPE_ROM0.
Proof. unfold aliasedType. case_match; auto. Qed.

Lemma withinSize_normalized s :
  withinSize s → withinSize (normalized lim opt s).
Proof.
  intros Hw. apply (withinSize_intro lim); cbn.
  - apply aliasedType_valid. by apply withinSize_valid.
  - rewrite maxsizeOf_aliasedType. by apply withinSize_size.
Qed.

Lemma normalized_fixpoint s :
  diag32k opt s = [] →
  normalized lim opt (normalized lim opt s) = normalized lim opt s.
Proof.
  intros H32. pose proof (aliasedType_normalized s H32) as Ha.
  assert (Hd : degenerate lim opt (normalized lim opt s) = degenerate lim opt s).
  { unfold degenerate. by rewrite Ha. }
  assert (Hk : alignKept (normalized lim opt s) = isAlignFixed (normalized lim opt s)).
  { unfold alignKept. cbn. unfold alignKept.
    destruct (isAlignFixed s), (alignMask s =? 1); cbn; try done.
    by rewrite andb_true_r. }
  assert (Ht : tightened opt (normalized lim opt s) = false).
  { unfold tightened. rewrite Hk, Ha. cbn. unfold tightened.
    destruct (alignKept s), (isAddressFixed s); cbn; try done.
    by destruct (Z.land _ _ =? _). }
  unfold normalized at 1. rewrite Ha, Hd, Ht, Hk. cbn.
  unfold normalized. f_equal.
  - apply orb_false_r.
  - by destruct (degenerate lim opt s).
  - by destruct (degenerate lim opt s).
  - destruct (alignKept s), (isAddressFixed s), (tightened opt s); done.
Qed.

Lemma diagnostics_normalized s :
  BANK_MIN_WRAMX lim ≠ BANK_MAX_WRAMX lim →
  BANK_MIN_VRAM lim ≠ BANK_MAX_VRAM lim →
  diagnostics lim opt s = [] →
  diagnostics lim opt (normalized lim opt s) = [].
Proof.
  intros Hw Hvr (H32 & Hwra & Hdmg & Hbank & Hal & Hrange & Hend)%diagnostics_nil_inv.
  pose proof (aliasedType_normalized s H32) as Ha.
  pose proof (normalized_fixpoint s H32) as Hn.
  pose proof (aliased_not_ROMX s H32) as Hx.
  assert (E32 : diag32k opt (normalized lim opt s) = []).
  { unfold diag32k. cbn. by rewrite Hx. }
  assert (Ewra : diagWRA0 opt (normalized lim opt s) = []).
  { unfold diagWRA0 in *. cbn.
    destruct (isWRA0Mode opt); [cbn in *|done].
    destruct (bool_decide_reflect (aliasedType opt s = SECTTYPE_WRAMX)) as [E|E];
      [cbn|done].
    assert (Et : type s = SECTTYPE_WRAMX).
    { destruct (aliasedType_cases s) as [E'|E']; congruence. }
    rewrite Et in Hwra. rewrite bool_decide_eq_true_2 in Hwra by done.
    cbn in Hwra.
    assert (Hdeg : degenerate lim opt s = false).
    { unfold degenerate, minbankOf, maxbankOf. rewrite E. cbn.
      by apply Z.eqb_neq. }
    unfold pinnedOffBank1 in *. cbn. rewrite Hdeg. cbn.
    by destruct (isBankFixed s && negb (bank s =? 1)). }
  assert (Edmg : diagDmg opt (normalized lim opt s) = []).
  { unfold diagDmg in *. cbn.
    destruct (isDmgMode opt); [cbn in *|done].
    destruct (bool_decide_reflect (aliasedType opt s = SECTTYPE_VRAM)) as [E|E];
      [cbn|done].
    assert (Et : type s = SECTTYPE_VRAM).
    { destruct (aliasedType_cases s) as [E'|E']; congruence. }
    rewrite Et in Hdmg. rewrite bool_decide_eq_true_2 in Hdmg by done.
    cbn in Hdmg.
    assert (Hdeg : degenerate lim opt s = false).
    { unfold degenerate, minbankOf, maxbankOf. rewrite E. cbn.
      by apply Z.eqb_neq. }
    rewrite Hdeg. by destruct (bank s =? 1). }
  assert (Ebank : diagBank lim opt (normalized lim opt s) = []).
  { unfold diagBank in *. rewrite Ha. cbn. unfold degenerate.
    destruct (minbankOf lim (aliasedType opt s) =? maxbankOf lim (aliasedType opt s)) eqn:Hdeg.
    - cbn. by rewrite Z.ltb_irrefl.
    - cbn. by case_match. }
  assert (Ealign : diagAlign (normalized lim opt s) = []).
  { unfold diagAlign, alignKept. cbn.
    destruct (alignKept s), (isAddressFixed s), (tightened opt s),
      (alignMask s =? 1); done. }
  assert (Erange : diagRange lim opt (normalized lim opt s) = []).
  { unfold diagRange in *. rewrite Hn. cbn in *. by case_match. }
  assert (Eend : diagEnd lim opt (normalized lim opt s) = []).
  { unfold diagEnd in *. rewrite Hn. cbn in *. by case_match. }
  unfold diagnostics.
  by rewrite E32, Ewra, Edmg, Ebank, Ealign, Erange, Eend.
Qed.

End Idempotence.

(** C9.  A section that a run of [doSanityChecks] produced without printing
    anything is left exactly as it is by another run, which prints nothing
    and leaves the flag as it finds it.  (A section that a run left
    unchanged is the case [s0 = s].)  WRAMX and VRAM are taken to have more
    than one bank. *)
Theorem doSanityChecks_idempotent lim opt s0 f0 s f1 :
  BANK_MIN_WRAMX lim ≠ BANK_MAX_WRAMX lim →
  BANK_MIN_VRAM lim ≠ BANK_MAX_VRAM lim →
  doSanityChecks lim opt (s0, f0) = Some (tt, (s, f1), []) →
  ∀ f, doSanityChecks lim opt (s, f) = Some (tt, (s, f), []).
Proof.
  intros Hw Hvr (Hv & -> & Hd & _)%doSanityChecks_inv f.
  symmetry in Hd.
  destruct (diagnostics_nil_inv lim opt s0 Hd) as (H32 & _).
  rewrite doSanityChecks_valid by by apply withinSize_normalized.
  rewrite normalized_fixpoint by done.
  rewrite diagnostics_normalized by done.
  cbn. by rewrite orb_false_r.
Qed.

(** ** The failure flag across calls *)

Section Flag.

Context (lim : BankLimits) (opt : Options) (collides : HashMap → string → bool).

(** A sweep that ends sets the flag exactly when it printed. *)
Lemma forEach_flag entries st st' d :
  forEach (doSanityChecks lim opt) entries st = Some (st', d) →
  sanityChecksFailed st' = sanityChecksFailed st || nonempty d.
Proof.
  revert st st' d. induction entries as [|[key section] rest IH];
    intros st st' d E; cbn in E.
  - simplify_eq. cbn. by rewrite orb_false_r.
  - destruct (doSanityChecks lim opt (section, sanityChecksFailed st))
      as [[[[] [s1 f1]] d1]|] eqn:E1; [|done].
    destruct (forEach _ rest _) as [[st2 d2]|] eqn:E2; [|done].
    simplify_eq. apply IH in E2. cbn in E2.
    apply doSanityChecks_inv in E1 as (_ & _ & _ & ->).
    by rewrite E2, nonempty_app, orb_assoc.
Qed.

(** A sweep over sections within size ends. *)
Lemma forEach_defined entries st :
  (∀ key section, (key, section) ∈ entries → withinSize section) →
  is_Some (forEach (doSanityChecks lim opt) entries st).
Proof.
  revert st. induction entries as [|[key section] rest IH]; intros st Hv; cbn.
  - by eexists.
  - rewrite doSanityChecks_valid by (apply (Hv key); left).
    destruct (IH (mkLinkState
                    (<[key := normalized lim opt section]> (sections st))
                    (sanityChecksFailed st || nonempty (diagnostics lim opt section))))
      as [[st2 d2] ->].
    + intros k s Hin. apply (Hv k). by right.
    + by eexists.
Qed.

(** A sweep over sections for which the checks print nothing prints
    nothing. *)
Lemma forEach_quiet entries st :
  (∀ key section, (key, section) ∈ entries →
     ∀ f, ∃ s' f', doSanityChecks lim opt (section, f) = Some (tt, (s', f'), [])) →
  ∃ st', forEach (doSanityChecks lim opt) entries st = Some (st', []).
Proof.
  revert st. induction entries as [|[key section] rest IH]; intros st Hq; cbn.
  - by eexists.
  - destruct (Hq key section (ltac:(left)) (sanityChecksFailed st))
      as (s' & f' & ->).
    destruct (IH (mkLinkState (<[key := s']> (sections st)) f')) as [st2 ->].
    + intros k s Hin. apply (Hq k). by right.
    + by eexists.
Qed.

Lemma sect_ForEach_defined st :
  allWithinSize (sections st) →
  is_Some (sect_ForEach (doSanityChecks lim opt) st).
Proof.
  intros Hv. apply forEach_defined. intros key section Hin.
  apply (Hv key). by apply elem_of_map_to_list.
Qed.

(** No call turns the flag off. *)
Lemma call_keeps_flag c st st1 :
  stateAfter (perform lim opt collides c st) = Some st1 →
  sanityChecksFailed st = true →
  sanityChecksFailed st1 = true.
Proof.
  intros E Hf. destruct c; cbn in E.
  - unfold sect_AddSection in E.
    destruct (hash_GetElement _ _); cbn in E; by simplify_eq.
  - by simplify_eq.
  - by simplify_eq.
  - unfold sect_DoSanityChecks, sect_ForEach in E.
    destruct (forEach _ _ _) as [[st2 d2]|] eqn:E2; [|done].
    apply forEach_flag in E2. rewrite Hf in E2. cbn in E2.
    rewrite E2 in E. cbn in E. by simplify_eq.
Qed.

(** The flag is turned on only by a sweep that printed a diagnostic. *)
Lemma flag_set_by_failing_check c st st1 :
  stateAfter (perform lim opt collides c st) = Some st1 →
  sanityChecksFailed st = false →
  sanityChecksFailed st1 = true →
  c = CallDoSanityChecks
  ∧ ∃ d, d ≠ []
         ∧ sect_DoSanityChecks lim opt st = Exits 1 st1 (d ++ [SanityChecksFailed]).
Proof.
  intros E Hf Hf1. destruct c; cbn in E.
  - unfold sect_AddSection in E.
    destruct (hash_GetElement _ _); cbn in E; simplify_eq; cbn in *; congruence.
  - simplify_eq. congruence.
  - simplify_eq. cbn in *. congruence.
  - split; [done|]. unfold sect_DoSanityChecks, sect_ForEach in *.
    destruct (forEach _ _ _) as [[st2 d2]|] eqn:E2; [|done].
    pose proof (forEach_flag _ _ _ _ E2) as Hfl. rewrite Hf in Hfl. cbn in Hfl.
    destruct (sanityChecksFailed st2) eqn:Hs2; cbn in E; simplify_eq.
    + exists d2. split; [|done]. by destruct d2.
    + congruence.
Qed.

End Flag.

(** C10.  Once the flag [sanityChecksFailed] is set it stays set through
    every later call, clearing the registry included, and every later
    [sect_DoSanityChecks] over sections within size ends with the fatal
    error and the flag still set, whatever the registry holds; when no
    stored section makes a check print, that error is all the sweep
    prints.  The flag goes from clear to set only in a sweep in which some
    check printed. *)
Theorem sanityChecksFailed_never_reset lim opt collides st st' :
  sanityChecksFailed st = true →
  later lim opt collides st st' →
  sanityChecksFailed st' = true
  ∧ (∀ st1 out, sect_CleanupSections st' = Returns tt st1 out →
                sanityChecksFailed st1 = true)
  ∧ (allWithinSize (sections st') →
     ∃ st1 d, sect_DoSanityChecks lim opt st'
              = Exits 1 st1 (d ++ [SanityChecksFailed])
              ∧ sanityChecksFailed st1 = true)
  ∧ ((∀ key section, sections st' !! key = Some section →
        ∀ f, ∃ s' f', doSanityChecks lim opt (section, f)
                      = Some (tt, (s', f'), [])) →
     ∃ st1, sect_DoSanityChecks lim opt st' = Exits 1 st1 [SanityChecksFailed]
            ∧ sanityChecksFailed st1 = true)
  ∧ (∀ c sta stb, sanityChecksFailed sta = false →
       stateAfter (perform lim opt collides c sta) = Some stb →
       sanityChecksFailed stb = true →
       c = CallDoSanityChecks
       ∧ ∃ d, d ≠ [] ∧ sect_DoSanityChecks lim opt sta
                       = Exits 1 stb (d ++ [SanityChecksFailed])).
Proof.
  intros Hf Hl.
  assert (Hf' : sanityChecksFailed st' = true).
  { induction Hl as [|st c st1 st2 E _ IH]; [done|].
    apply IH. by eapply call_keeps_flag. }
  split_and!.
  - done.
  - intros st1 out E. unfold sect_CleanupSections in E. by simplify_eq.
  - intros Hv. destruct (sect_ForEach_defined lim opt st' Hv) as [[st1 d] E].
    exists st1, d. unfold sect_DoSanityChecks. rewrite E.
    unfold sect_ForEach in E. apply forEach_flag in E.
    rewrite Hf' in E. cbn in E. by rewrite E.
  - intros Hq.
    destruct (forEach_quiet lim opt (hash_Entries (sections st')) st') as [st1 E].
    { intros key section Hin. apply (Hq key). by apply elem_of_map_to_list. }
    exists st1. unfold sect_DoSanityChecks, sect_ForEach. rewrite E.
    apply forEach_flag in E. rewrite Hf' in E. cbn in E. by rewrite E.
  - intros c sta stb Ha E Hb. by eapply flag_set_by_failing_check.
Qed.

(** ** The statements at concrete sections *)

Example romxBank600_not_rejected :
  doSanityChecks gbLimits noOptions (romxBank600, false)
  = Some (tt, (romxBank600, false), []).
Proof. reflexivity. Qed.

Example romxAligned_tightened :
  doSanityChecks gbLimits noOptions (romxAligned, false)
  = Some (tt, (romxAlignedChecked, false), []).
Proof. reflexivity. Qed.

Example rom0Misaligned_reported_and_cleared :
  doSanityChecks gbLimits noOptions (rom0Misaligned, false)
  = Some (tt, (set_isBankFixed true (set_isAlignFixed false rom0Misaligned), true),
          [AddressAlignMismatch "entry"]).
Proof. reflexivity. Qed.

Example rom0Mask1_not_reported :
  doSanityChecks gbLimits noOptions (rom0Mask1, false)
  = Some (tt, (set_isBankFixed true (set_isAlignFixed false rom0Mask1), false), []).
Proof. reflexivity. Qed.

Example romxFloating_becomes_rom0 :
  doSanityChecks gbLimits opt32k (romxFloating, false)
  = Some (tt, (set_isBankFixed true (set_bank 0 (set_type SECTTYPE_ROM0 romxFloating)),
               false), []).
Proof. reflexivity. Qed.

Example romxBank2_fails_in_32k_mode :
  doSanityChecks gbLimits opt32k (romxBank2, false)
  = Some (tt, (romxBank2, true), [RomxBankWith32k "main"]).
Proof. reflexivity. Qed.

Example wram0Full_passes :
  doSanityChecks gbLimits noOptions (wram0Full, false)
  = Some (tt, (wram0FullChecked, false), []).
Proof. reflexivity. Qed.

(** [solve_withinSize] proves that a concrete section is within size. *)
Ltac solve_withinSize := eexists; split; [reflexivity|cbn; lia].

Example invalid_type_is_undefined :
  doSanityChecks gbLimits noOptions (set_type SECTTYPE_INVALID wram0Full, false)
  = None.
Proof. reflexivity. Qed.

Lemma bank_range_check_never_fires_witness :
  ∃ s' f' d,
    doSanityChecks gbLimits noOptions (romxBank600, false) = Some (tt, (s', f'), d)
    ∧ ∀ single n b lo hi, BankOutOfRange single n b lo hi ∉ d.
Proof.
  apply (bank_range_check_never_fires gbLimits noOptions romxBank600 false).
  - intros t lo hi E. destruct t; cbn in E; inversion E; lia.
  - solve_withinSize.
Defined.


(** C4 as stated fails: [rom0Misaligned] has both flags set and an address
    with a bit of the mask set, and the run does not leave its alignment
    fixed. *)
Lemma align_flag_left_set_counterexample :
  ¬ (isAlignFixed rom0Misaligned = true →
     isAddressFixed rom0Misaligned = true →
     Z.land (org rom0Misaligned) (alignMask rom0Misaligned) ≠ 0 →
     ∃ s' f' d,
       doSanityChecks gbLimits noOptions (rom0Misaligned, false)
       = Some (tt, (s', f'), d)
       ∧ AddressAlignMismatch (name rom0Misaligned) ∈ d
       ∧ isAlignFixed s' = true).
Proof.
  intros H. destruct H as (s' & f' & d & E & _ & Hfl); [done..|].
  rewrite rom0Misaligned_reported_and_cleared in E. by simplify_eq.
Qed.

Lemma align_with_address_always_cleared_witness :
  ∃ s' f' d,
    doSanityChecks gbLimits noOptions (rom0Misaligned, false) = Some (tt, (s', f'), d)
    ∧ isAlignFixed s' = false
    ∧ ((∃ n, AddressAlignMismatch n ∈ d)
       ↔ alignMask rom0Misaligned ≠ 1
         ∧ Z.land (org rom0Misaligned) (alignMask rom0Misaligned) ≠ 0)
    ∧ (alignMask rom0Misaligned ≠ 1 →
       Z.land (org rom0Misaligned) (alignMask rom0Misaligned) ≠ 0 →
       AddressAlignMismatch (name rom0Misaligned) ∈ d ∧ f' = true).
Proof.
  apply (align_with_address_always_cleared gbLimits noOptions rom0Misaligned false).
  - solve_withinSize.
  - reflexivity.
  - reflexivity.
Defined.

Lemma romx_in_32k_mode_witness :
  ∃ s' f' d,
    doSanityChecks gbLimits opt32k (romxBank2, false) = Some (tt, (s', f'), d)
    ∧ (isBankFixed romxBank2 = true ∧ bank romxBank2 ≠ 1 →
       RomxBankWith32k (name romxBank2) ∈ d ∧ f' = true ∧ type s' = SECTTYPE_ROMX)
    ∧ (isBankFixed romxBank2 = false ∨ bank romxBank2 = 1 →
       type s' = SECTTYPE_ROM0
       ∧ ∀ n, (RomxBankWith32k n ∉ d) ∧ (WramxBankWithWra0 n ∉ d)
              ∧ (VramBank1WithDmg n ∉ d)).
Proof.
  apply (romx_in_32k_mode gbLimits opt32k romxBank2 false).
  - reflexivity.
  - reflexivity.
  - solve_withinSize.
Defined.

Lemma degenerate_bank_range_forces_bank_witness :
  ∃ s' f' d,
    doSanityChecks gbLimits opt32k (romxFloating, false) = Some (tt, (s', f'), d)
    ∧ ∀ b, bankranges gbLimits (type s') = Some (b, b) →
           bank s' = b ∧ isBankFixed s' = true.
Proof.
  apply (degenerate_bank_range_forces_bank gbLimits opt32k romxFloating false).
  solve_withinSize.
Defined.

Lemma registry_insert_lookup_witness :
  ∃ st1 out1 st2 out2,
    sect_AddSection noOptions noCollision romxAligned (mkLinkState ∅ false)
    = Returns tt st1 out1
    ∧ sect_AddSection noOptions noCollision wram0Full st1 = Returns tt st2 out2
    ∧ sect_GetSection (name romxAligned) st2 = Some romxAligned
    ∧ sect_GetSection (name wram0Full) st2 = Some wram0Full.
Proof.
  destruct (registry_insert_lookup noOptions noCollision (mkLinkState ∅ false)
              romxAligned wram0Full)
    as (st1 & out1 & st2 & out2 & H1 & H2 & H3 & H4 & _).
  - discriminate.
  - reflexivity.
  - reflexivity.
  - exists st1, out1, st2, out2. repeat split; assumption.
Defined.

(** Without more than one WRAMX bank the second run can differ: the first
    run pins the section to the single bank, and the WRA0 check then
    rejects that bank. *)
Example single_bank_wramx_second_run_fails :
  doSanityChecks oneWramxBank optWRA0 (wramxFloating, false)
  = Some (tt, (set_isBankFixed true (set_bank 3 wramxFloating), false), [])
  ∧ doSanityChecks oneWramxBank optWRA0
      (set_isBankFixed true (set_bank 3 wramxFloating), false)
    = Some (tt, (set_isBankFixed true (set_bank 3 wramxFloating), true),
            [WramxBankWithWra0 "stack"]).
Proof. split; reflexivity. Qed.

Lemma doSanityChecks_idempotent_witness :
  doSanityChecks gbLimits noOptions (romxAlignedChecked, false)
  = Some (tt, (romxAlignedChecked, false), []).
Proof.
  apply (doSanityChecks_idempotent gbLimits noOptions romxAligned false
           romxAlignedChecked false).
  - discriminate.
  - discriminate.
  - reflexivity.
Defined.

Lemma sanityChecksFailed_never_reset_witness :
  sanityChecksFailed failedThenValid = true
  ∧ ∃ st1, sect_DoSanityChecks gbLimits noOptions failedThenValid
           = Exits 1 st1 [SanityChecksFailed]
           ∧ sanityChecksFailed st1 = true.
Proof.
  destruct (sanityChecksFailed_never_reset gbLimits noOptions noCollision
              failedEmpty failedThenValid)
    as (H1 & _ & _ & H4 & _).
  - reflexivity.
  - apply (later_call _ _ _ _ CallCleanupSections failedEmpty failedThenValid);
      [reflexivity|].
    apply (later_call _ _ _ _ (CallAddSection wram0FullChecked) failedThenValid
             failedThenValid); [reflexivity|].
    apply later_now.
  - split; [exact H1|]. apply H4.
    intros key section Hk f.
    unfold failedThenValid in Hk. cbn [sections] in Hk.
    apply lookup_insert_Some in Hk as [[_ <-]|[_ Hk]].
    + exists wram0FullChecked, f. destruct f; reflexivity.
    + rewrite lookup_empty in Hk. discriminate.
Defined.

(** A whole session: a sweep fails on a misaligned section, the registry is
    cleared and refilled with a section that passes every check, and the
    next sweep still ends with the fatal error. *)
Example failure_outlives_cleanup :
  ∃ st1 st2 st3 st4 st5,
    sect_AddSection noOptions noCollision rom0Misaligned (mkLinkState ∅ false)
    = Returns tt st1 []
    ∧ sect_DoSanityChecks gbLimits noOptions st1
      = Exits 1 st2 [AddressAlignMismatch "entry"; SanityChecksFailed]
    ∧ sect_CleanupSections st2 = Returns tt st3 []
    ∧ sect_AddSection noOptions noCollision wram0FullChecked st3 = Returns tt st4 []
    ∧ sect_DoSanityChecks gbLimits noOptions st4 = Exits 1 st5 [SanityChecksFailed].
Proof. eexists _, _, _, _, _. split_and!; reflexivity. Qed.

(** * Further properties of [doSanityChecks] *)

Ltac which_diag H :=
  apply elem_of_diagnostics in H;
  destruct H as [H|[H|[H|[H|[H|[H|H]]]]]]; diag_cases; try discriminate;
  simplify_eq; bool_hyps.

(** X1.  A run of [doSanityChecks] has a result exactly for the sections
    within size.  For a type outside the enumeration the first check
    prints its diagnostic and sets the flag, nothing returns, and line 146
    reads [bankranges] outside its bounds; for a size over the max size of
    a valid type the run reaches the call of line 158. *)
Theorem doSanityChecks_defined_iff lim opt s f :
  (is_Some (doSanityChecks lim opt (s, f)) ↔ withinSize s)
  ∧ (type s = SECTTYPE_INVALID →
     checkType (s, f) = Some (tt, (s, true), [InvalidType (name s)])
     ∧ doSanityChecks lim opt (s, f) = None)
  ∧ (∀ maxsz, maxsize (type s) = Some maxsz → size s > maxsz →
     doSanityChecks lim opt (s, f) = None).
Proof.
  split_and!.
  - split.
    + intros [[[[] [s' f']] d] E]. by apply doSanityChecks_inv in E as (? & _).
    + intros Hw. rewrite doSanityChecks_valid by done. by eexists.
  - intros E. split; [|by apply doSanityChecks_undefined].
    rewrite (checkType_invalid_runs s E f). cbn. by rewrite orb_true_r.
  - intros maxsz Em Hgt. apply doSanityChecks_oversize.
    + intros Hi. by rewrite Hi in Em.
    + unfold maxsizeOf. by rewrite Em.
Qed.

(** X2.  What a run on a section within size never does: it never changes
    the name, the size or the alignment mask, never clears
    [isAddressFixed] or [isBankFixed], never moves an address that was
    fixed on entry, and never sets [isAlignFixed]. *)
Theorem doSanityChecks_never_loosens lim opt s f :
  withinSize s →
  ∃ s' f' d,
    doSanityChecks lim opt (s, f) = Some (tt, (s', f'), d)
    ∧ name s' = name s ∧ size s' = size s ∧ alignMask s' = alignMask s
    ∧ (isAddressFixed s = true → isAddressFixed s' = true ∧ org s' = org s)
    ∧ (isBankFixed s = true → isBankFixed s' = true)
    ∧ (isAlignFixed s' = true → isAlignFixed s = true).
Proof.
  intros Hw. eexists _, _, _. split; [by apply doSanityChecks_valid|].
  cbn. split_and!; try done.
  - intros Had. unfold tightened. rewrite Had, andb_false_r. done.
  - intros ->. apply orb_true_r.
  - unfold alignKept. intros H. by bool_hyps.
Qed.

(** X3.  The only change of type a run on a section within size makes is
    from ROMX to ROM0, and it makes it only in 32k mode; without the option
    the type is kept. *)
Theorem doSanityChecks_type_change lim opt s f :
  withinSize s →
  ∃ s' f' d,
    doSanityChecks lim opt (s, f) = Some (tt, (s', f'), d)
    ∧ (type s' = type s
       ∨ (is32kMode opt = true ∧ type s = SECTTYPE_ROMX
          ∧ type s' = SECTTYPE_ROM0))
    ∧ (is32kMode opt = false → type s' = type s)
    ∧ (type s ≠ SECTTYPE_ROMX → type s' = type s).
Proof.
  intros Hw. eexists _, _, _. split; [by apply doSanityChecks_valid|].
  cbn. unfold aliasedType.
  destruct (is32kMode opt); cbn; [|by auto].
  destruct (bool_decide_reflect (type s = SECTTYPE_ROMX)) as [E|E]; cbn;
    [|by auto].
  destruct (pinnedOffBank1 s); cbn; split_and!; auto; done.
Qed.

(** X4.  A run on a section within size leaves the flag
    [sanityChecksFailed] set exactly when the flag was set on entry or the
    run printed a diagnostic; in particular it never clears it. *)
Theorem doSanityChecks_flag lim opt s f :
  withinSize s →
  ∃ s' f' d,
    doSanityChecks lim opt (s, f) = Some (tt, (s', f'), d)
    ∧ (f' = true ↔ f = true ∨ d ≠ [])
    ∧ (f = true → f' = true).
Proof.
  intros Hw. eexists _, _, _. split; [by apply doSanityChecks_valid|].
  destruct f, (diagnostics lim opt s); cbn; split_and!; try done;
    intuition congruence.
Qed.

(** X5.  When the bank range of the type the run leaves in the section
    has more than one bank, a run on a section within size leaves the bank
    and [isBankFixed] as they were, even for a fixed bank outside the
    range. *)
Theorem doSanityChecks_keeps_bank lim opt s f :
  withinSize s →
  ∃ s' f' d,
    doSanityChecks lim opt (s, f) = Some (tt, (s', f'), d)
    ∧ ∀ lo hi, bankranges lim (type s') = Some (lo, hi) → lo ≠ hi →
               bank s' = bank s ∧ isBankFixed s' = isBankFixed s.
Proof.
  intros Hw. pose proof (withinSize_valid s Hw) as Hv.
  destruct (valid_tables lim _ (aliasedType_valid opt s Hv)) as (Eb & _).
  eexists _, _, _. split; [by apply doSanityChecks_valid|].
  cbn. intros lo hi E Hne. rewrite Eb in E. injection E as Hlo Hhi.
  unfold degenerate. rewrite Hlo, Hhi.
  apply Z.eqb_neq in Hne. by rewrite Hne.
Qed.

(** X6.  After a run on a section within size the alignment is still
    fixed exactly when it was fixed on entry with a mask other than 1, the
    address was not fixed, and the test of line 177 failed; such a section
    never leaves a run with both its alignment and its address fixed. *)
Theorem doSanityChecks_alignment_kept_iff lim opt s f :
  withinSize s →
  ∃ s' f' d first last,
    doSanityChecks lim opt (s, f) = Some (tt, (s', f'), d)
    ∧ startaddr (type s') = Some first
    ∧ endaddr (type s') = Some last
    ∧ (isAlignFixed s' = true
       ↔ isAlignFixed s = true ∧ alignMask s ≠ 1 ∧ isAddressFixed s = false
         ∧ Z.land last (alignMask s) ≠ first)
    ∧ (isAlignFixed s' = true →
       isAddressFixed s' = false ∧ org s' = org s)
    ∧ ¬ (isAlignFixed s' = true ∧ isAddressFixed s' = true).
Proof.
  intros Hw. pose proof (withinSize_valid s Hw) as Hv.
  destruct (valid_tables lim _ (aliasedType_valid opt s Hv)) as (_ & Ef & El & _).
  eexists _, _, _, _, _. split; [by apply doSanityChecks_valid|].
  split; [exact Ef|]. split; [exact El|]. cbn.
  unfold tightened, alignKept.
  destruct (isAlignFixed s), (isAddressFixed s),
    (Z.eqb_spec (alignMask s) 1),
    (Z.eqb_spec (Z.land (lastOf (aliasedType opt s)) (alignMask s))
       (firstOf (aliasedType opt s)));
    cbn; split_and!; try split; intros; destruct_and?; try done;
    intros [? ?]; done.
Qed.

(** X7.  On a section within size the WRA0 diagnostic is printed exactly
    for a WRAMX section, under the WRA0 option, whose bank is fixed to a
    bank other than 1; the check never changes the type of a WRAMX
    section. *)
Theorem wramx_in_wra0_mode lim opt s f :
  withinSize s →
  ∃ s' f' d,
    doSanityChecks lim opt (s, f) = Some (tt, (s', f'), d)
    ∧ ((∃ n, WramxBankWithWra0 n ∈ d)
       ↔ isWRA0Mode opt = true ∧ type s = SECTTYPE_WRAMX
         ∧ isBankFixed s = true ∧ bank s ≠ 1)
    ∧ (∀ n, WramxBankWithWra0 n ∈ d → n = name s ∧ f' = true)
    ∧ (type s = SECTTYPE_WRAMX → type s' = SECTTYPE_WRAMX).
Proof.
  intros Hw. eexists _, _, _. split; [by apply doSanityChecks_valid|].
  split_and!.
  - split.
    + intros [n Hn]. which_diag Hn. unfold pinnedOffBank1 in *.
      bool_hyps. done.
    + intros (Ho & Ht & Hfx & Hb%Z.eqb_neq). exists (name s).
      apply elem_of_diagnostics. right. left.
      unfold diagWRA0, pinnedOffBank1. rewrite Ho, Ht, Hfx, Hb. cbn.
      by apply list_elem_of_singleton.
  - intros n Hn. rewrite (nonempty_elem_of _ _ Hn), orb_true_r.
    which_diag Hn. done.
  - intros Ht. cbn. unfold aliasedType. rewrite Ht. cbn.
    by rewrite andb_false_r.
Qed.

(** X8.  On a section within size the DMG diagnostic is printed exactly
    for a VRAM section, under the DMG option, whose [bank] member is 1,
    whether or not its bank is fixed. *)
Theorem vram_bank1_in_dmg_mode lim opt s f :
  withinSize s →
  ∃ s' f' d,
    doSanityChecks lim opt (s, f) = Some (tt, (s', f'), d)
    ∧ ((∃ n, VramBank1WithDmg n ∈ d)
       ↔ isDmgMode opt = true ∧ type s = SECTTYPE_VRAM ∧ bank s = 1)
    ∧ (∀ n, VramBank1WithDmg n ∈ d → n = name s ∧ f' = true).
Proof.
  intros Hw. eexists _, _, _. split; [by apply doSanityChecks_valid|].
  split_and!.
  - split.
    + intros [n Hn]. which_diag Hn. done.
    + intros (Ho & Ht & Hb). exists (name s).
      apply elem_of_diagnostics. do 2 right. left.
      unfold diagDmg. rewrite Ho, Ht, Hb. cbn.
      by apply list_elem_of_singleton.
  - intros n Hn. rewrite (nonempty_elem_of _ _ Hn), orb_true_r.
    which_diag Hn. done.
Qed.

(** X9.  An alignment with the mask 1 is dropped without a word: a
    section within size leaves the run with its alignment not fixed, its
    address and [isAddressFixed] as they were, and no mismatch diagnostic,
    whatever its address. *)
Theorem mask_one_alignment_dropped lim opt s f :
  withinSize s →
  alignMask s = 1 →
  ∃ s' f' d,
    doSanityChecks lim opt (s, f) = Some (tt, (s', f'), d)
    ∧ isAlignFixed s' = false
    ∧ isAddressFixed s' = isAddressFixed s
    ∧ org s' = org s
    ∧ ∀ n, AddressAlignMismatch n ∉ d.
Proof.
  intros Hw Hm. eexists _, _, _. split; [by apply doSanityChecks_valid|].
  assert (Hk : alignKept s = false).
  { unfold alignKept. rewrite Hm. cbn. apply andb_false_r. }
  assert (Ht : tightened opt s = false).
  { unfold tightened. by rewrite Hk. }
  cbn. rewrite Hk, Ht. cbn. split_and!; try done.
  - apply orb_false_r.
  - intros n Hn. which_diag Hn. congruence.
Qed.

(** X10.  A section within size whose address is fixed on entry is checked
    against the region of the type the run leaves in it: the out-of-range
    diagnostic is printed exactly when the address is below the first or
    above the last address of the region, the end-address diagnostic
    exactly when the address plus the size exceeds the last address plus
    one, and either one marks the run failed.  With the address at the
    first address, a size equal to the region's max size does not print
    the end-address diagnostic. *)
Theorem fixed_address_range_checks lim opt s f :
  withinSize s →
  isAddressFixed s = true →
  ∃ s' f' d first last maxsz,
    doSanityChecks lim opt (s, f) = Some (tt, (s', f'), d)
    ∧ startaddr (type s') = Some first
    ∧ endaddr (type s') = Some last
    ∧ maxsize (type s') = Some maxsz
    ∧ (AddressOutOfRange (name s) (org s) first last ∈ d
       ↔ ¬ (first ≤ org s ≤ last))
    ∧ (EndAddressTooHigh (name s) (org s + size s) (last + 1) ∈ d
       ↔ org s + size s > last + 1)
    ∧ (∀ n a lo hi, AddressOutOfRange n a lo hi ∈ d → ¬ (first ≤ org s ≤ last))
    ∧ (∀ n e l, EndAddressTooHigh n e l ∈ d → org s + size s > last + 1)
    ∧ (¬ (first ≤ org s ≤ last) ∨ org s + size s > last + 1 → f' = true)
    ∧ (org s = first → size s = maxsz →
       ∀ n e l, EndAddressTooHigh n e l ∉ d).
Proof.
  intros Hw Had. pose proof (withinSize_valid s Hw) as Hv.
  pose proof (aliasedType_valid opt s Hv) as Hv'.
  destruct (valid_tables lim _ Hv') as (_ & Ef & El & Em).
  assert (Hlast : lastOf (aliasedType opt s)
                  = firstOf (aliasedType opt s) + maxsizeOf (aliasedType opt s) - 1).
  { clear -Hv'. by destruct (aliasedType opt s). }
  assert (Hnt : tightened opt s = false).
  { unfold tightened. by rewrite Had, andb_false_r. }
  assert (Hr : ∀ n a lo hi, AddressOutOfRange n a lo hi ∈ diagnostics lim opt s
               ↔ (n = name s ∧ a = org s ∧ lo = firstOf (aliasedType opt s)
                  ∧ hi = lastOf (aliasedType opt s))
                 ∧ ¬ (firstOf (aliasedType opt s) ≤ org s ≤ lastOf (aliasedType opt s))).
  { intros n a lo hi. rewrite elem_of_diagnostics. unfold diagRange. cbn.
    rewrite Hnt, Had. cbn. split.
    - intros [H|[H|[H|[H|[H|[H|H]]]]]]; diag_cases; try discriminate.
      simplify_eq. split; [done|]. lia.
    - intros ((-> & -> & -> & ->) & Hout). do 5 right. left.
      case_match; [by apply list_elem_of_singleton|]. lia. }
  assert (He : ∀ n e l, EndAddressTooHigh n e l ∈ diagnostics lim opt s
               ↔ (n = name s ∧ e = org s + size s
                  ∧ l = lastOf (aliasedType opt s) + 1)
                 ∧ org s + size s > lastOf (aliasedType opt s) + 1).
  { intros n e l. rewrite elem_of_diagnostics. unfold diagEnd. cbn.
    rewrite Hnt, Had. cbn. split.
    - intros [H|[H|[H|[H|[H|[H|H]]]]]]; diag_cases; try discriminate.
      simplify_eq. split; [done|]. lia.
    - intros ((-> & -> & ->) & Hout). do 6 right.
      case_match; [by apply list_elem_of_singleton|]. lia. }
  eexists _, _, _, _, _, _. split; [by apply doSanityChecks_valid|].
  split; [exact Ef|]. split; [exact El|]. split; [exact Em|].
  split_and!.
  - rewrite Hr. tauto.
  - rewrite He. tauto.
  - intros n a lo hi Hin. by apply Hr in Hin as [_ ?].
  - intros n e l Hin. by apply He in Hin as [_ ?].
  - intros Hbad.
    assert (∃ x, x ∈ diagnostics lim opt s) as [x Hx].
    { destruct Hbad as [Hbad|Hbad].
      - eexists. apply Hr. split; [done|]. exact Hbad.
      - eexists. apply He. split; [done|]. exact Hbad. }
    rewrite (nonempty_elem_of _ _ Hx). apply orb_true_r.
  - intros Ho Hs n e l Hin. apply He in Hin as [_ Hin]. lia.
Qed.

(** X11.  A section within size whose address is not fixed on entry is
    never reported by the address checks: if the run fixes its address,
    that address is the first address of its region, which is in range and
    leaves room for the whole section. *)
Theorem floating_address_never_out_of_range lim opt s f :
  withinSize s →
  isAddressFixed s = false →
  ∃ s' f' d,
    doSanityChecks lim opt (s, f) = Some (tt, (s', f'), d)
    ∧ (∀ n a lo hi, AddressOutOfRange n a lo hi ∉ d)
    ∧ (∀ n e l, EndAddressTooHigh n e l ∉ d)
    ∧ (isAddressFixed s' = true → startaddr (type s') = Some (org s'))
    ∧ (isAddressFixed s' = false → org s' = org s).
Proof.
  intros Hw Had. pose proof (withinSize_valid s Hw) as Hv.
  pose proof (withinSize_size s Hw) as Hle.
  rewrite <- (maxsizeOf_aliasedType opt) in Hle.
  pose proof (aliasedType_valid opt s Hv) as Hv'.
  destruct (valid_tables lim _ Hv') as (_ & Ef & El & Em).
  assert (Hlast : lastOf (aliasedType opt s)
                  = firstOf (aliasedType opt s) + maxsizeOf (aliasedType opt s) - 1
                  ∧ 0 < maxsizeOf (aliasedType opt s)).
  { clear -Hv'. by destruct (aliasedType opt s). }
  destruct Hlast as [Hlast Hpos].
  eexists _, _, _. split; [by apply doSanityChecks_valid|].
  split_and!.
  - intros n a lo hi Hn. which_diag Hn. cbn in *. rewrite Had in *.
    destruct (tightened opt s); [|done]. lia.
  - intros n e l Hn. which_diag Hn. cbn in *. rewrite Had in *.
    destruct (tightened opt s); [|done]. lia.
  - cbn. rewrite Had. cbn. by intros ->.
  - cbn. rewrite Had. cbn. by intros ->.
Qed.

(** X12.  What a run that returns without printing guarantees: the size
    is within the max size of the region; a fixed address lies in the
    region with the whole section before the region's end; in 32k mode the
    section is not ROMX; and the flag is as it was. *)
Theorem clean_run_guarantees lim opt s f s' f' :
  doSanityChecks lim opt (s, f) = Some (tt, (s', f'), []) →
  ∃ first maxsz,
    startaddr (type s') = Some first
    ∧ maxsize (type s') = Some maxsz
    ∧ size s' ≤ maxsz
    ∧ (isAddressFixed s' = true →
       first ≤ org s' ∧ org s' + size s' ≤ first + maxsz)
    ∧ (is32kMode opt = true → type s' ≠ SECTTYPE_ROMX)
    ∧ f' = f.
Proof.
  intros (Hw & -> & Hd & ->)%doSanityChecks_inv. symmetry in Hd.
  pose proof (withinSize_valid s Hw) as Hv.
  pose proof (withinSize_size s Hw) as Hle.
  rewrite <- (maxsizeOf_aliasedType opt) in Hle.
  pose proof (aliasedType_valid opt s Hv) as Hv'.
  destruct (valid_tables lim _ Hv') as (_ & Ef & El & Em).
  assert (Hlast : lastOf (aliasedType opt s)
                  = firstOf (aliasedType opt s) + maxsizeOf (aliasedType opt s) - 1).
  { clear -Hv'. by destruct (aliasedType opt s). }
  eexists _, _. split; [exact Ef|]. split; [exact Em|].
  apply diagnostics_nil_inv in Hd
    as (H32 & _ & _ & _ & _ & Hrange & Hend).
  split_and!.
  - done.
  - intros Hfx. unfold diagRange, diagEnd in *. cbn in *. rewrite Hfx in *.
    cbn in *. repeat case_match; try done; clear Hfx; bool_hyps; lia.
  - intros Ho. cbn. pose proof (aliased_not_ROMX opt s H32) as Hx.
    rewrite Ho in Hx. cbn in Hx. by apply bool_decide_eq_false in Hx.
  - apply orb_false_r.
Qed.

(** X13.  The layout tables describe regions of positive size that lie
    inside the 16-bit address space and do not overlap one another. *)
Theorem regions_disjoint t1 t2 a1 m1 a2 m2 :
  startaddr t1 = Some a1 → maxsize t1 = Some m1 →
  startaddr t2 = Some a2 → maxsize t2 = Some m2 →
  t1 ≠ t2 →
  (a1 + m1 ≤ a2 ∨ a2 + m2 ≤ a1)
  ∧ 0 < m1 ∧ 0 ≤ a1 ∧ a1 + m1 ≤ 0x10000.
Proof.
  intros E1 E2 E3 E4 Hne.
  destruct t1, t2; cbn in *; simplify_eq; try done; lia.
Qed.

(** * Further properties of the sweep and the registry *)

Section Sweep.

Context (lim : BankLimits) (opt : Options).

Lemma passes_iff s :
  passes lim opt s ↔ withinSize s ∧ diagnostics lim opt s = [].
Proof.
  unfold passes. split.
  - intros [s' (Hv & _ & Hd & _)%doSanityChecks_inv]. done.
  - intros [Hv Hd]. eexists. rewrite doSanityChecks_valid by done.
    by rewrite Hd.
Qed.

Lemma forEach_closed entries st st' d :
  forEach (doSanityChecks lim opt) entries st = Some (st', d) →
  st' = mkLinkState (sweptMap lim opt entries (sections st))
          (sanityChecksFailed st || nonempty (sweptDiags lim opt entries))
  ∧ d = sweptDiags lim opt entries.
Proof.
  revert st st' d. induction entries as [|[key section] rest IH];
    intros st st' d E; cbn in E.
  - simplify_eq. destruct st'. cbn. by rewrite orb_false_r.
  - destruct (doSanityChecks lim opt (section, sanityChecksFailed st))
      as [[[[] [s1 f1]] d1]|] eqn:E1; [|done].
    destruct (forEach _ rest _) as [[st2 d2]|] eqn:E2; [|done].
    simplify_eq. apply IH in E2 as [-> ->]. cbn.
    apply doSanityChecks_inv in E1 as (_ & -> & -> & ->).
    unfold sweptDiags. cbn. by rewrite nonempty_app, orb_assoc.
Qed.

(** A sweep that ends visited only sections within size. *)
Lemma forEach_Some_within entries st r key section :
  forEach (doSanityChecks lim opt) entries st = Some r →
  (key, section) ∈ entries → withinSize section.
Proof.
  revert st r. induction entries as [|[k s] rest IH]; intros st r E Hin;
    [by apply elem_of_nil in Hin|].
  cbn in E.
  destruct (doSanityChecks lim opt (s, sanityChecksFailed st))
    as [[[[] [s1 f1]] d1]|] eqn:E1; [|done].
  destruct (forEach _ rest _) as [r2|] eqn:E2; [|done].
  apply elem_of_cons in Hin as [Hin|Hin].
  - simplify_eq. by apply doSanityChecks_inv in E1 as (? & _).
  - by eapply IH.
Qed.

Lemma sweptMap_lookup entries (map : HashMap) key :
  NoDup entries.*1 →
  sweptMap lim opt entries map !! key
  = match (list_to_map entries : HashMap) !! key with
    | Some s => Some (normalized lim opt s)
    | None => map !! key
    end.
Proof.
  revert map. induction entries as [|[k s] rest IH]; intros map Hnd; [done|].
  rewrite fmap_cons in Hnd. apply NoDup_cons in Hnd as [Hk Hnd].
  change (sweptMap lim opt ((k, s) :: rest) map)
    with (sweptMap lim opt rest (<[k := normalized lim opt s]> map)).
  rewrite IH by done. rewrite list_to_map_cons.
  destruct (decide (k = key)) as [->|Hne].
  - rewrite lookup_insert_eq.
    rewrite (not_elem_of_list_to_map_1 rest key) by done.
    by rewrite lookup_insert_eq.
  - by rewrite !lookup_insert_ne.
Qed.

Lemma sweptMap_entries (map : HashMap) :
  sweptMap lim opt (hash_Entries map) map = normalized lim opt <$> map.
Proof.
  apply map_eq. intros key. unfold hash_Entries.
  rewrite sweptMap_lookup by apply NoDup_fst_map_to_list.
  rewrite list_to_map_to_list, lookup_fmap.
  by destruct (map !! key).
Qed.

Lemma elem_of_sweptDiags x entries :
  x ∈ sweptDiags lim opt entries
  ↔ ∃ key s, (key, s) ∈ entries ∧ x ∈ diagnostics lim opt s.
Proof.
  unfold sweptDiags. rewrite list_elem_of_bind. split.
  - intros ([key s] & Hx & Hin). by exists key, s.
  - intros (key & s & Hin & Hx). by exists (key, s).
Qed.

Lemma sweptDiags_nil entries :
  sweptDiags lim opt entries = []
  ↔ ∀ key s, (key, s) ∈ entries → diagnostics lim opt s = [].
Proof.
  split.
  - intros E key s Hin. destruct (diagnostics lim opt s) as [|x l] eqn:Ed; [done|].
    assert (Hx : x ∈ sweptDiags lim opt entries).
    { apply elem_of_sweptDiags. exists key, s. rewrite Ed. split; [done|left]. }
    rewrite E in Hx. by apply elem_of_nil in Hx.
  - intros H. destruct (sweptDiags lim opt entries) as [|x l] eqn:Ed; [done|].
    assert (Hx : x ∈ sweptDiags lim opt entries) by (rewrite Ed; left).
    apply elem_of_sweptDiags in Hx as (key & s & Hin & Hx).
    rewrite (H key s Hin) in Hx. by apply elem_of_nil in Hx.
Qed.

(** The sweep over the registry, in closed form. *)
Lemma sect_ForEach_closed st :
  allWithinSize (sections st) →
  sect_ForEach (doSanityChecks lim opt) st
  = Some (mkLinkState (normalized lim opt <$> sections st)
            (sanityChecksFailed st
             || nonempty (sweptDiags lim opt (hash_Entries (sections st)))),
          sweptDiags lim opt (hash_Entries (sections st))).
Proof.
  intros Hv. destruct (sect_ForEach_defined lim opt st Hv) as [[st' d] E].
  rewrite E. unfold sect_ForEach in E.
  apply forEach_closed in E as [-> ->]. by rewrite sweptMap_entries.
Qed.

Lemma sect_ForEach_Some_valid st r :
  sect_ForEach (doSanityChecks lim opt) st = Some r →
  allWithinSize (sections st).
Proof.
  intros E key s Hk. unfold sect_ForEach in E.
  eapply forEach_Some_within; [exact E|].
  by apply elem_of_map_to_list.
Qed.

End Sweep.

(** X14.  A sweep over sections within size keeps the set of stored
    names and replaces every stored section by what [doSanityChecks]
    leaves of it. *)
Theorem sweep_normalizes_registry lim opt st :
  allWithinSize (sections st) →
  ∃ st' out,
    (sect_DoSanityChecks lim opt st = Returns tt st' out
     ∨ sect_DoSanityChecks lim opt st = Exits 1 st' out)
    ∧ (∀ key, sections st !! key = None → sections st' !! key = None)
    ∧ (∀ key s, sections st !! key = Some s →
         ∃ s' f' d, doSanityChecks lim opt (s, false) = Some (tt, (s', f'), d)
                    ∧ sections st' !! key = Some s').
Proof.
  intros Hv.
  assert (Hout : ∃ f out,
    sect_DoSanityChecks lim opt st
      = Returns tt (mkLinkState (normalized lim opt <$> sections st) f) out
    ∨ sect_DoSanityChecks lim opt st
      = Exits 1 (mkLinkState (normalized lim opt <$> sections st) f) out).
  { unfold sect_DoSanityChecks. rewrite sect_ForEach_closed by done.
    cbn [sanityChecksFailed].
    destruct (sanityChecksFailed st || _); eexists _, _; [by right|by left]. }
  destruct Hout as (f & out & Hout).
  exists (mkLinkState (normalized lim opt <$> sections st) f), out.
  split; [exact Hout|]. split.
  - intros key E. cbn. by rewrite lookup_fmap, E.
  - intros key s E. eexists _, _, _. split.
    + apply doSanityChecks_valid. by apply (Hv key).
    + cbn. by rewrite lookup_fmap, E.
Qed.

(** When [sect_DoSanityChecks] returns, and how it ends when it ends. *)
Lemma sweep_returns_iff lim opt st :
  ((∃ st' out, sect_DoSanityChecks lim opt st = Returns tt st' out)
   ↔ sanityChecksFailed st = false
     ∧ ∀ key s, sections st !! key = Some s → passes lim opt s)
  ∧ (∀ st' out, sect_DoSanityChecks lim opt st = Returns tt st' out →
       out = [] ∧ sanityChecksFailed st' = false)
  ∧ (∀ status st' out, sect_DoSanityChecks lim opt st = Exits status st' out →
       status = 1 ∧ sanityChecksFailed st' = true
       ∧ last out = Some SanityChecksFailed).
Proof.
  assert (Hret : ∀ st' out, sect_DoSanityChecks lim opt st = Returns tt st' out →
    allWithinSize (sections st) ∧ sanityChecksFailed st = false
    ∧ sweptDiags lim opt (hash_Entries (sections st)) = []
    ∧ out = [] ∧ sanityChecksFailed st' = false).
  { intros st' out E. unfold sect_DoSanityChecks in E.
    destruct (sect_ForEach _ st) as [[st1 d1]|] eqn:E1; [|done].
    pose proof (sect_ForEach_Some_valid _ _ _ _ E1) as Hv.
    rewrite sect_ForEach_closed in E1 by done. simplify_eq. cbn in E.
    destruct (sanityChecksFailed st); [done|]. cbn in E.
    destruct (sweptDiags _ _ _); [|done]. cbn in E. by simplify_eq. }
  split_and!.
  - split.
    + intros (st' & out & E). apply Hret in E as (Hv & Hf & Hd & _).
      split; [done|]. intros key s Hk. apply passes_iff.
      split; [by apply (Hv key)|].
      apply (proj1 (sweptDiags_nil lim opt _) Hd key).
      by apply elem_of_map_to_list.
    + intros [Hf Hp].
      assert (Hv : allWithinSize (sections st)).
      { intros key s Hk. by apply (proj1 (passes_iff lim opt s) (Hp key s Hk)). }
      assert (Hd : sweptDiags lim opt (hash_Entries (sections st)) = []).
      { apply sweptDiags_nil. intros key s Hin.
        apply elem_of_map_to_list in Hin.
        by apply (proj1 (passes_iff lim opt s) (Hp key s Hin)). }
      unfold sect_DoSanityChecks. rewrite sect_ForEach_closed by done.
      rewrite Hf, Hd. cbn. by eexists _, _.
  - intros st' out E. by apply Hret in E as (_ & _ & _ & ? & ?).
  - intros status st' out E. unfold sect_DoSanityChecks in E.
    destruct (sect_ForEach _ st) as [[st1 d1]|]; [|done].
    destruct (sanityChecksFailed st1) eqn:Hf; [|done]. simplify_eq.
    split_and!; [done..|]. apply last_snoc.
Qed.

(** X15.  Over a registry of sections within size, [sect_DoSanityChecks]
    ends in one of two ways.  It returns, having printed nothing and left
    the flag clear, and then the flag was clear and every stored section
    passes; or it ends through [errx] with status 1, the flag set and
    "Sanity checks failed" as the last thing printed, and then the flag was
    already set or some stored section does not pass. *)
Theorem sweep_verdict lim opt st :
  allWithinSize (sections st) →
  (∃ st', sect_DoSanityChecks lim opt st = Returns tt st' []
          ∧ sanityChecksFailed st' = false
          ∧ sanityChecksFailed st = false
          ∧ ∀ key s, sections st !! key = Some s → passes lim opt s)
  ∨ (∃ st' d, sect_DoSanityChecks lim opt st
              = Exits 1 st' (d ++ [SanityChecksFailed])
              ∧ sanityChecksFailed st' = true
              ∧ (sanityChecksFailed st = true
                 ∨ ∃ key s, sections st !! key = Some s
                            ∧ ¬ passes lim opt s)).
Proof.
  intros Hv. unfold sect_DoSanityChecks.
  rewrite sect_ForEach_closed by done. cbn [sanityChecksFailed].
  destruct (sanityChecksFailed st) eqn:Hf; cbn.
  { right. eexists _, _. split; [done|]. split; [done|]. by left. }
  destruct (sweptDiags lim opt (hash_Entries (sections st))) as [|x l] eqn:Hd;
    cbn.
  - left. eexists. split; [done|]. split; [done|]. split; [done|].
    intros key s Hk. apply passes_iff. split; [by apply (Hv key)|].
    apply (proj1 (sweptDiags_nil lim opt _) Hd key).
    by apply elem_of_map_to_list.
  - right. eexists _, (x :: l). split; [done|]. split; [done|]. right.
    assert (Hx : x ∈ sweptDiags lim opt (hash_Entries (sections st)))
      by (rewrite Hd; left).
    apply elem_of_sweptDiags in Hx as (key & s & Hin%elem_of_map_to_list & Hx).
    exists key, s. split; [done|].
    intros [_ Hn]%passes_iff. rewrite Hn in Hx. by apply elem_of_nil in Hx.
Qed.

(** X16.  [sect_DoSanityChecks] has a defined end exactly when every
    stored section is within size: one stored section with a type outside
    the enumeration, or with a size over the max size of its type, leaves
    the sweep undefined. *)
Theorem sweep_defined_iff lim opt st :
  sect_DoSanityChecks lim opt st ≠ Undefined ↔ allWithinSize (sections st).
Proof.
  unfold sect_DoSanityChecks. split.
  - intros H. destruct (sect_ForEach _ st) as [r|] eqn:E; [|done].
    by eapply sect_ForEach_Some_valid.
  - intros Hv. rewrite sect_ForEach_closed by done. by case_match.
Qed.

(** X17.  Over sections within size the sweep does not stop at the first
    failure: apart from the closing "Sanity checks failed", it prints
    exactly the diagnostics that the runs of [doSanityChecks] on the stored
    sections print. *)
Theorem sweep_prints_every_diagnostic lim opt st x :
  allWithinSize (sections st) →
  x ≠ SanityChecksFailed →
  x ∈ printed (sect_DoSanityChecks lim opt st)
  ↔ ∃ key s s' f' d,
      sections st !! key = Some s
      ∧ doSanityChecks lim opt (s, false) = Some (tt, (s', f'), d)
      ∧ x ∈ d.
Proof.
  intros Hv Hx.
  assert (Hp : x ∈ printed (sect_DoSanityChecks lim opt st)
               ↔ x ∈ sweptDiags lim opt (hash_Entries (sections st))).
  { unfold sect_DoSanityChecks. rewrite sect_ForEach_closed by done.
    cbn [sanityChecksFailed]. case_match; cbn; [|done].
    rewrite elem_of_app, list_elem_of_singleton.
    split; [intros [?|?]; [done|congruence]|by left]. }
  rewrite Hp, elem_of_sweptDiags. split.
  - intros (key & s & Hin%elem_of_map_to_list & Hd).
    exists key, s. eexists _, _, _. split; [done|]. split; [|exact Hd].
    apply doSanityChecks_valid. by apply (Hv key).
  - intros (key & s & s' & f' & d & Hk & E & Hd).
    apply doSanityChecks_inv in E as (_ & _ & -> & _).
    exists key, s. split; [by apply elem_of_map_to_list|done].
Qed.

Section Session.

Context (lim : BankLimits) (opt : Options) (collides : HashMap → string → bool).

(** The registry a defined sweep leaves. *)
Lemma sweep_sections st st1 :
  stateAfter (sect_DoSanityChecks lim opt st) = Some st1 →
  allWithinSize (sections st)
  ∧ sections st1 = normalized lim opt <$> sections st.
Proof.
  unfold sect_DoSanityChecks. intros E.
  destruct (sect_ForEach _ st) as [[st2 d2]|] eqn:E1; [|done].
  pose proof (sect_ForEach_Some_valid _ _ _ _ E1) as Hv. split; [done|].
  rewrite sect_ForEach_closed in E1 by done.
  destruct (sanityChecksFailed st2); cbn in E; by simplify_eq.
Qed.

Lemma call_keeps_keyed c st st1 :
  stateAfter (perform lim opt collides c st) = Some st1 →
  keyed (sections st) → keyed (sections st1).
Proof.
  intros E Hk. destruct c; cbn in E.
  - unfold sect_AddSection, hash_GetElement, hash_AddElement in E.
    destruct (sections st !! name section); cbn in E; simplify_eq; [done|].
    intros key s Hs. cbn in Hs.
    apply lookup_insert_Some in Hs as [[<- <-]|[_ Hs]]; [done|by apply Hk].
  - by simplify_eq.
  - simplify_eq. intros key s Hs. cbn in Hs. unfold hash_EmptyMap in Hs.
    by rewrite lookup_empty in Hs.
  - apply sweep_sections in E as [_ E]. intros key s' Hs. rewrite E in Hs.
    apply lookup_fmap_Some in Hs as (s & <- & Hs). cbn. by apply Hk.
Qed.

Lemma call_keeps_names c st st1 key :
  stateAfter (perform lim opt collides c st) = Some st1 →
  c ≠ CallCleanupSections →
  is_Some (sections st !! key) → is_Some (sections st1 !! key).
Proof.
  intros E Hc [s Hs]. destruct c; cbn in E; [| |done|].
  - unfold sect_AddSection, hash_GetElement, hash_AddElement in E.
    destruct (sections st !! name section); cbn in E; simplify_eq; [by eexists|].
    cbn. destruct (decide (name section = key)) as [->|Hne].
    + rewrite lookup_insert_eq. by eexists.
    + rewrite lookup_insert_ne by done. by eexists.
  - simplify_eq. by eexists.
  - apply sweep_sections in E as [_ E]. rewrite E, lookup_fmap, Hs. by eexists.
Qed.

End Session.

(** X18.  Every section is stored under its own name, and stays so through
    every call: whatever [sect_GetSection] finds under a name is a section
    of that name, also after sweeps have rewritten the stored sections. *)
Theorem registry_keyed_by_name lim opt collides st st' :
  keyed (sections st) →
  later lim opt collides st st' →
  keyed (sections st')
  ∧ ∀ n s, sect_GetSection n st' = Some s → name s = n.
Proof.
  intros Hk Hl.
  assert (Hk' : keyed (sections st')).
  { induction Hl as [|st c st1 st2 E _ IH]; [done|].
    apply IH. by eapply call_keeps_keyed. }
  split; [done|]. intros n s E. by apply Hk'.
Qed.

(** X19.  Only [sect_CleanupSections] removes a name: after any other
    call, whether it returned or ended in an error, every name that was
    stored is still stored. *)
Theorem names_removed_only_by_cleanup lim opt collides c st st1 :
  stateAfter (perform lim opt collides c st) = Some st1 →
  c ≠ CallCleanupSections →
  ∀ n, is_Some (sect_GetSection n st) → is_Some (sect_GetSection n st1).
Proof.
  intros E Hc n Hn. by eapply call_keeps_names.
Qed.

(** X20.  A sweep that returns has brought the registry to a fixed point:
    sweeping again returns the same globals and prints nothing.  WRAMX and
    VRAM are taken to have more than one bank. *)
Theorem second_sweep_changes_nothing lim opt st st' out :
  BANK_MIN_WRAMX lim ≠ BANK_MAX_WRAMX lim →
  BANK_MIN_VRAM lim ≠ BANK_MAX_VRAM lim →
  sect_DoSanityChecks lim opt st = Returns tt st' out →
  sect_DoSanityChecks lim opt st' = Returns tt st' [].
Proof.
  intros Hw Hvr E.
  assert (Ha : stateAfter (sect_DoSanityChecks lim opt st) = Some st')
    by by rewrite E.
  apply sweep_sections in Ha as [Hv Hs].
  destruct (sweep_returns_iff lim opt st) as (Hiff & Hret & _).
  destruct (Hret st' out E) as [-> Hf'].
  destruct (proj1 Hiff (ex_intro _ st' (ex_intro _ [] E))) as [Hf Hp].
  assert (Hclean : ∀ key s, sections st !! key = Some s →
            diagnostics lim opt s = []).
  { intros key s Hk. by apply (proj1 (passes_iff lim opt s) (Hp key s Hk)). }
  assert (Hv' : allWithinSize (sections st')).
  { intros key s' Hk. rewrite Hs in Hk.
    apply lookup_fmap_Some in Hk as (s & <- & Hk).
    apply withinSize_normalized. by apply (Hv key). }
  assert (Hfix : normalized lim opt <$> sections st' = sections st').
  { rewrite Hs. rewrite <- map_fmap_compose.
    apply map_fmap_ext. intros key s Hk. cbn.
    apply normalized_fixpoint.
    by destruct (diagnostics_nil_inv lim opt s (Hclean key s Hk)) as (? & _). }
  assert (Hd : sweptDiags lim opt (hash_Entries (sections st')) = []).
  { apply sweptDiags_nil. intros key s' Hin.
    apply elem_of_map_to_list in Hin. rewrite Hs in Hin.
    apply lookup_fmap_Some in Hin as (s & <- & Hk).
    apply diagnostics_normalized; [done..|]. by apply (Hclean key). }
  unfold sect_DoSanityChecks. rewrite sect_ForEach_closed by done.
  rewrite Hfix, Hd, Hf'. cbn. by destruct st'; cbn in *; subst.
Qed.

(** ** The further properties at concrete sections and registries *)

Lemma allWithinSize_singleton key s :
  withinSize s → allWithinSize (<[key := s]> ∅).
Proof.
  intros Hw k s' Hk.
  apply lookup_insert_Some in Hk as [[_ <-]|[_ Hk]]; [done|].
  by rewrite lookup_empty in Hk.
Qed.

Example oneValid_sweep :
  sect_DoSanityChecks gbLimits noOptions oneValid = Returns tt oneValidChecked [].
Proof. reflexivity. Qed.

Example oneMisaligned_sweep :
  printed (sect_DoSanityChecks gbLimits noOptions oneMisaligned)
  = [AddressAlignMismatch "entry"; SanityChecksFailed].
Proof. reflexivity. Qed.

(** A registry holding an oversize section: the sweep has no defined end. *)
Example oversize_sweep_undefined :
  sect_DoSanityChecks gbLimits noOptions
    (mkLinkState (<["vars"%string := wram0TooLong]> ∅) false)
  = Undefined.
Proof. reflexivity. Qed.

Lemma doSanityChecks_never_loosens_witness :
  ∃ s' f' d,
    doSanityChecks gbLimits noOptions (wram0Full, false) = Some (tt, (s', f'), d)
    ∧ name s' = name wram0Full ∧ size s' = size wram0Full
    ∧ alignMask s' = alignMask wram0Full
    ∧ (isAddressFixed wram0Full = true →
       isAddressFixed s' = true ∧ org s' = org wram0Full)
    ∧ (isBankFixed wram0Full = true → isBankFixed s' = true)
    ∧ (isAlignFixed s' = true → isAlignFixed wram0Full = true).
Proof.
  apply (doSanityChecks_never_loosens gbLimits noOptions wram0Full false).
  solve_withinSize.
Defined.

Lemma doSanityChecks_type_change_witness :
  ∃ s' f' d,
    doSanityChecks gbLimits opt32k (romxFloating, false) = Some (tt, (s', f'), d)
    ∧ (type s' = type romxFloating
       ∨ (is32kMode opt32k = true ∧ type romxFloating = SECTTYPE_ROMX
          ∧ type s' = SECTTYPE_ROM0))
    ∧ (is32kMode opt32k = false → type s' = type romxFloating)
    ∧ (type romxFloating ≠ SECTTYPE_ROMX → type s' = type romxFloating).
Proof.
  apply (doSanityChecks_type_change gbLimits opt32k romxFloating false).
  solve_withinSize.
Defined.

Lemma doSanityChecks_flag_witness :
  ∃ s' f' d,
    doSanityChecks gbLimits noOptions (rom0Misaligned, false)
    = Some (tt, (s', f'), d)
    ∧ (f' = true ↔ false = true ∨ d ≠ [])
    ∧ (false = true → f' = true).
Proof.
  apply (doSanityChecks_flag gbLimits noOptions rom0Misaligned false).
  solve_withinSize.
Defined.

Lemma doSanityChecks_keeps_bank_witness :
  ∃ s' f' d,
    doSanityChecks gbLimits noOptions (romxBank600, false) = Some (tt, (s', f'), d)
    ∧ ∀ lo hi, bankranges gbLimits (type s') = Some (lo, hi) → lo ≠ hi →
               bank s' = bank romxBank600
               ∧ isBankFixed s' = isBankFixed romxBank600.
Proof.
  apply (doSanityChecks_keeps_bank gbLimits noOptions romxBank600 false).
  solve_withinSize.
Defined.

Lemma doSanityChecks_alignment_kept_iff_witness :
  ∃ s' f' d first last,
    doSanityChecks gbLimits noOptions (romxAligned, false) = Some (tt, (s', f'), d)
    ∧ startaddr (type s') = Some first
    ∧ endaddr (type s') = Some last
    ∧ (isAlignFixed s' = true
       ↔ isAlignFixed romxAligned = true ∧ alignMask romxAligned ≠ 1
         ∧ isAddressFixed romxAligned = false
         ∧ Z.land last (alignMask romxAligned) ≠ first)
    ∧ (isAlignFixed s' = true →
       isAddressFixed s' = false ∧ org s' = org romxAligned)
    ∧ ¬ (isAlignFixed s' = true ∧ isAddressFixed s' = true).
Proof.
  apply (doSanityChecks_alignment_kept_iff gbLimits noOptions romxAligned false).
  solve_withinSize.
Defined.

Lemma wramx_in_wra0_mode_witness :
  ∃ s' f' d,
    doSanityChecks gbLimits optWRA0 (wramxFloating, false) = Some (tt, (s', f'), d)
    ∧ ((∃ n, WramxBankWithWra0 n ∈ d)
       ↔ isWRA0Mode optWRA0 = true ∧ type wramxFloating = SECTTYPE_WRAMX
         ∧ isBankFixed wramxFloating = true ∧ bank wramxFloating ≠ 1)
    ∧ (∀ n, WramxBankWithWra0 n ∈ d → n = name wramxFloating ∧ f' = true)
    ∧ (type wramxFloating = SECTTYPE_WRAMX → type s' = SECTTYPE_WRAMX).
Proof.
  apply (wramx_in_wra0_mode gbLimits optWRA0 wramxFloating false).
  solve_withinSize.
Defined.

Lemma vram_bank1_in_dmg_mode_witness :
  ∃ s' f' d,
    doSanityChecks gbLimits optDmg (vramBank1Floating, false)
    = Some (tt, (s', f'), d)
    ∧ ((∃ n, VramBank1WithDmg n ∈ d)
       ↔ isDmgMode optDmg = true ∧ type vramBank1Floating = SECTTYPE_VRAM
         ∧ bank vramBank1Floating = 1)
    ∧ (∀ n, VramBank1WithDmg n ∈ d → n = name vramBank1Floating ∧ f' = true).
Proof.
  apply (vram_bank1_in_dmg_mode gbLimits optDmg vramBank1Floating false).
  solve_withinSize.
Defined.

Lemma mask_one_alignment_dropped_witness :
  ∃ s' f' d,
    doSanityChecks gbLimits noOptions (rom0Mask1, false) = Some (tt, (s', f'), d)
    ∧ isAlignFixed s' = false
    ∧ isAddressFixed s' = isAddressFixed rom0Mask1
    ∧ org s' = org rom0Mask1
    ∧ ∀ n, AddressAlignMismatch n ∉ d.
Proof.
  apply (mask_one_alignment_dropped gbLimits noOptions rom0Mask1 false).
  - solve_withinSize.
  - reflexivity.
Defined.

Lemma fixed_address_range_checks_witness :
  ∃ s' f' d first last maxsz,
    doSanityChecks gbLimits noOptions (wram0Full, false) = Some (tt, (s', f'), d)
    ∧ startaddr (type s') = Some first
    ∧ endaddr (type s') = Some last
    ∧ maxsize (type s') = Some maxsz
    ∧ (AddressOutOfRange (name wram0Full) (org wram0Full) first last ∈ d
       ↔ ¬ (first ≤ org wram0Full ≤ last))
    ∧ (EndAddressTooHigh (name wram0Full) (org wram0Full + size wram0Full) (last + 1) ∈ d
       ↔ org wram0Full + size wram0Full > last + 1)
    ∧ (∀ n a lo hi, AddressOutOfRange n a lo hi ∈ d →
         ¬ (first ≤ org wram0Full ≤ last))
    ∧ (∀ n e l, EndAddressTooHigh n e l ∈ d →
         org wram0Full + size wram0Full > last + 1)
    ∧ (¬ (first ≤ org wram0Full ≤ last)
       ∨ org wram0Full + size wram0Full > last + 1 → f' = true)
    ∧ (org wram0Full = first → size wram0Full = maxsz →
       ∀ n e l, EndAddressTooHigh n e l ∉ d).
Proof.
  apply (fixed_address_range_checks gbLimits noOptions wram0Full false).
  - solve_withinSize.
  - reflexivity.
Defined.

Lemma floating_address_never_out_of_range_witness :
  ∃ s' f' d,
    doSanityChecks gbLimits noOptions (romxAligned, false) = Some (tt, (s', f'), d)
    ∧ (∀ n a lo hi, AddressOutOfRange n a lo hi ∉ d)
    ∧ (∀ n e l, EndAddressTooHigh n e l ∉ d)
    ∧ (isAddressFixed s' = true → startaddr (type s') = Some (org s'))
    ∧ (isAddressFixed s' = false → org s' = org romxAligned).
Proof.
  apply (floating_address_never_out_of_range gbLimits noOptions romxAligned false).
  - solve_withinSize.
  - reflexivity.
Defined.

Lemma clean_run_guarantees_witness :
  ∃ first maxsz,
    startaddr (type wram0FullChecked) = Some first
    ∧ maxsize (type wram0FullChecked) = Some maxsz
    ∧ size wram0FullChecked ≤ maxsz
    ∧ (isAddressFixed wram0FullChecked = true →
       first ≤ org wram0FullChecked
       ∧ org wram0FullChecked + size wram0FullChecked ≤ first + maxsz)
    ∧ (is32kMode noOptions = true → type wram0FullChecked ≠ SECTTYPE_ROMX)
    ∧ false = false.
Proof.
  apply (clean_run_guarantees gbLimits noOptions wram0Full false
           wram0FullChecked false).
  reflexivity.
Defined.

Lemma regions_disjoint_witness :
  (0x0000 + 0x4000 ≤ 0x4000 ∨ 0x4000 + 0x4000 ≤ 0x0000)
  ∧ 0 < 0x4000 ∧ 0 ≤ 0x0000 ∧ 0x0000 + 0x4000 ≤ 0x10000.
Proof.
  apply (regions_disjoint SECTTYPE_ROM0 SECTTYPE_ROMX 0x0000 0x4000 0x4000 0x4000).
  - reflexivity.
  - reflexivity.
  - reflexivity.
  - reflexivity.
  - discriminate.
Defined.

Lemma sweep_normalizes_registry_witness :
  ∃ st' out,
    (sect_DoSanityChecks gbLimits noOptions oneValid = Returns tt st' out
     ∨ sect_DoSanityChecks gbLimits noOptions oneValid = Exits 1 st' out)
    ∧ (∀ key, sections oneValid !! key = None → sections st' !! key = None)
    ∧ (∀ key s, sections oneValid !! key = Some s →
         ∃ s' f' d, doSanityChecks gbLimits noOptions (s, false)
                    = Some (tt, (s', f'), d)
                    ∧ sections st' !! key = Some s').
Proof.
  apply (sweep_normalizes_registry gbLimits noOptions oneValid).
  apply allWithinSize_singleton. solve_withinSize.
Defined.

Lemma sweep_verdict_witness :
  (∃ st', sect_DoSanityChecks gbLimits noOptions oneMisaligned = Returns tt st' []
          ∧ sanityChecksFailed st' = false
          ∧ sanityChecksFailed oneMisaligned = false
          ∧ ∀ key s, sections oneMisaligned !! key = Some s →
                     passes gbLimits noOptions s)
  ∨ (∃ st' d, sect_DoSanityChecks gbLimits noOptions oneMisaligned
              = Exits 1 st' (d ++ [SanityChecksFailed])
              ∧ sanityChecksFailed st' = true
              ∧ (sanityChecksFailed oneMisaligned = true
                 ∨ ∃ key s, sections oneMisaligned !! key = Some s
                            ∧ ¬ passes gbLimits noOptions s)).
Proof.
  apply (sweep_verdict gbLimits noOptions oneMisaligned).
  apply allWithinSize_singleton. solve_withinSize.
Defined.

Lemma sweep_prints_every_diagnostic_witness :
  AddressAlignMismatch "entry"
    ∈ printed (sect_DoSanityChecks gbLimits noOptions oneMisaligned)
  ↔ ∃ key s s' f' d,
      sections oneMisaligned !! key = Some s
      ∧ doSanityChecks gbLimits noOptions (s, false) = Some (tt, (s', f'), d)
      ∧ AddressAlignMismatch "entry" ∈ d.
Proof.
  apply (sweep_prints_every_diagnostic gbLimits noOptions oneMisaligned).
  - apply allWithinSize_singleton. solve_withinSize.
  - discriminate.
Defined.

Lemma registry_keyed_by_name_witness :
  keyed (sections oneValid)
  ∧ ∀ n s, sect_GetSection n oneValid = Some s → name s = n.
Proof.
  apply (registry_keyed_by_name gbLimits noOptions noCollision
           (mkLinkState ∅ false) oneValid).
  - intros key s Hk. cbn in Hk. rewrite lookup_empty in Hk. discriminate.
  - apply (later_call _ _ _ _ (CallAddSection wram0Full) oneValid oneValid);
      [reflexivity|].
    apply later_now.
Defined.

Lemma names_removed_only_by_cleanup_witness :
  is_Some (sect_GetSection "vars" oneValidChecked).
Proof.
  apply (names_removed_only_by_cleanup gbLimits noOptions noCollision
           CallDoSanityChecks oneValid oneValidChecked).
  - reflexivity.
  - discriminate.
  - exists wram0Full. reflexivity.
Defined.

Lemma second_sweep_changes_nothing_witness :
  sect_DoSanityChecks gbLimits noOptions oneValidChecked
  = Returns tt oneValidChecked [].
Proof.
  apply (second_sweep_changes_nothing gbLimits noOptions oneValid
           oneValidChecked []).
  - discriminate.
  - discriminate.
  - reflexivity.
Defined.
